(** * Food Calorie Estimator: client policies, router and batch engine

    A shallow embedding of the TypeScript front end
    (AuthContext.tsx, utils/apiErrorHandler.ts, config/api.ts,
    pages/BatchAnalyze.tsx, pages/ServerError.tsx) and, where the Python
    back end is not part of the tree, of the router and the batch store as
    the design document describes them.

    Part I holds the definitions, one module per source file.
    Part II holds the lemmas and the theorems. *)

From stdpp Require Import base decidable option list gmap strings pretty.
From Stdlib Require Import ZArith Lia.
From Stdlib Require QArith.

Local Open Scope string_scope.
Local Open Scope nat_scope.
#[local] Set Warnings "-register-all".
#[local] Set Warnings "-clear-no-such-hyp".

(* ===================================================================== *)
(** * Part I: definitions                                                 *)
(* ===================================================================== *)

(** ** frontend/src/context/AuthContext.tsx *)
Module AuthContext.

(** [UserRole = 'admin' | 'user' | null]; [null] is [None] below. *)
Inductive UserRole := RoleAdmin | RoleUser.

Record User := mkUser {
  id : string;
  name : string;
  email : string;
  role : option UserRole
}.

(** The provider's [useState<User | null>] cell together with the
    [currentUser] entry of localStorage that the second effect keeps in
    step with it. *)
Record AuthState := mkAuth {
  user : option User;
  currentUser : option User
}.

(** [setUser(u)] followed by the effect on [[user]]: [setItem] when the
    user is set, [removeItem] otherwise. *)
Definition setUser (u : option User) (_ : AuthState) : AuthState :=
  {| user := u; currentUser := u |}.

Definition mockUsers : list (string * User) :=
  [ ("admin@food.com", mkUser "1" "Admin User" "admin@food.com" (Some RoleAdmin));
    ("user@food.com", mkUser "2" "Regular User" "user@food.com" (Some RoleUser)) ].

(** [mockUsers[email]]: [None] is JavaScript's [undefined]. *)
Fixpoint prop_of {A} (o : list (string * A)) (k : string) : option A :=
  match o with
  | [] => None
  | (k', v) :: o' => if bool_decide (k' = k) then Some v else prop_of o' k
  end.

(** [login(email, password)]: the resolved boolean and the state after. *)
Definition login (email password : string) (st : AuthState) : bool * AuthState :=
  if (bool_decide (email = "admin@food.com") && bool_decide (password = "admin123"))
     || (bool_decide (email = "user@food.com") && bool_decide (password = "user123"))
  then
    let userData := prop_of mockUsers email in
    (true, setUser userData st)
  else (false, st).

Definition logout (st : AuthState) : AuthState := setUser None st.

Definition switchRole (r : option UserRole) (st : AuthState) : AuthState :=
  match user st, r with
  | Some u, Some r' =>
      setUser (Some (mkUser (id u) (name u) (email u) (Some r'))) st
  | _, _ => st
  end.

(** The context value: [isAdmin: user?.role === 'admin'] and
    [isAuthenticated: user !== null]. *)
Definition isAdmin (st : AuthState) : bool :=
  match user st with
  | Some u => match role u with Some RoleAdmin => true | _ => false end
  | None => false
  end.

Definition isAuthenticated (st : AuthState) : bool :=
  match user st with
  | Some _ => true
  | None => false
  end.

End AuthContext.

(** ** Values of [response.json()] *)
Module Js.

(** A parsed JSON document; [JUndefined] is what reading an absent
    property gives. Numbers are the integer ones. An object is its
    property table, first binding of a key first. *)
Inductive json :=
| JUndefined
| JNull
| JBool (b : bool)
| JNum (n : Z)
| JStr (s : string)
| JArr (items : list json)
| JObj (fields : list (string * json)).

(** JavaScript truthiness, as [!v], [v && _], [v || _] and [v ? _ : _] test it. *)
Definition truthy (v : json) : bool :=
  match v with
  | JUndefined | JNull => false
  | JBool b => b
  | JNum n => negb (n =? 0)%Z
  | JStr s => negb (bool_decide (s = ""))
  | JArr _ | JObj _ => true
  end.

Fixpoint assoc_opt (fields : list (string * json)) (k : string) : option json :=
  match fields with
  | [] => None
  | (k', v) :: rest => if bool_decide (k' = k) then Some v else assoc_opt rest k
  end.

Definition assoc (fields : list (string * json)) (k : string) : json :=
  default JUndefined (assoc_opt fields k).

(** [v.k] for a [v] that is neither [null] nor [undefined]; none of the
    keys read by the code is a built-in property of a string, a number,
    a boolean or an array. *)
Definition get (k : string) (v : json) : json :=
  match v with
  | JObj fields => assoc fields k
  | _ => JUndefined
  end.

Definition nullish (v : json) : bool :=
  match v with JUndefined | JNull => true | _ => false end.

(** [a || b] *)
Definition or_else (a b : json) : json := if truthy a then a else b.

(** [s.includes(needle)] on strings. *)
Fixpoint includes (needle s : string) : bool :=
  String.prefix needle s
  || match s with
     | EmptyString => false
     | String _ s' => includes needle s'
     end.

(** [a || b] where [a] is a string or [undefined]. *)
Definition str_or (a : option string) (b : string) : string :=
  match a with
  | Some s => if bool_decide (s = "") then b else s
  | None => b
  end.

End Js.

(** ** frontend/src/utils/apiErrorHandler.ts *)
Module ApiErrorHandler.
Import Js.

(** An [ApiError] instance ([name] is always ['ApiError']). *)
Record ApiError := mkApiError {
  message : string;
  status : Z;
  serverUrl : option string;
  isServerDown : bool
}.

(** [error.response.data], as far as it is read. *)
Record ResponseData := mkData {
  data_error : option string;
  data_message : option string
}.

(** A truthy [error.response] (axios style). *)
Record ErrorResponse := mkErrorResponse {
  response_status : option Z;
  response_data : option ResponseData;
  response_statusText : option string
}.

(** The other properties [createApiError] reads off a thrown value;
    [request] is the truthiness of [error.request]. *)
Record ErrorProps := mkProps {
  name : option string;
  response : option ErrorResponse;
  request : bool;
  instanceofError : bool
}.

(** What can be thrown, caught and handed to [createApiError]. *)
Inductive ErrorValue :=
| Null
| Undefined
| IsResponse (status : Z) (statusText : string)
| IsTypeError (message : string) (props : ErrorProps)
| IsApiError (e : ApiError)
| Other (message : option string) (props : ErrorProps).

(** How a call ends: it returns, or it throws a value. *)
Inductive completion (A : Type) :=
| Normal (a : A)
| Throw (v : ErrorValue).
Arguments Normal {A} a.
Arguments Throw {A} v.

(** How an [async] handler of a page goes: it ends, returning or
    throwing, with the page in a state [S]; or it stays at an [await]
    that never settles, the page being in the state reached before. *)
Inductive handled (S : Type) :=
| Ends (c : completion S)
| Waits (st : S).
Arguments Ends {S} c.
Arguments Waits {S} st.

(** An [Error] object of the given [name] with no [response] and no
    [request]. *)
Definition plainProps (n : string) : ErrorProps :=
  mkProps (Some n) None false true.

(** Reading a property of [null] or [undefined]. *)
Definition cannotRead (what prop : string) : ErrorValue :=
  IsTypeError ("Cannot read properties of " +:+ what +:+ " (reading '" +:+ prop +:+ "')")
              (plainProps "TypeError").

(** The part of [createApiError] after the [instanceof] tests, on an
    object with properties [name], [message], [response], [request]. *)
Definition fromProps (msg : option string) (p : ErrorProps)
    (url : option string) (defaultMessage : string) : ApiError :=
  if bool_decide (name p = Some "AbortError") then
    mkApiError "Request was cancelled" 0 url false
  else
    match response p with
    | Some r =>
        let status :=
          match response_status r with
          | Some s => if (s =? 0)%Z then 500%Z else s
          | None => 500%Z
          end in
        let message :=
          str_or (d ← response_data r; data_error d)
            (str_or (d ← response_data r; data_message d)
               (str_or (response_statusText r) "Server error")) in
        mkApiError message status url
          ((500 <=? status)%Z || (status =? 503)%Z || (status =? 502)%Z)
    | None =>
        if request p then
          mkApiError "No response from server. Server may be down." 0 url true
        else
          mkApiError (str_or msg defaultMessage) 500 url false
    end.

(** [createApiError(error, url, defaultMessage)]; an argument left out
    is [None]. *)
Definition createApiError (error : ErrorValue) (url : option string)
    (defaultMessage : option string) : completion ApiError :=
  let defaultMessage := default "An unexpected error occurred" defaultMessage in
  match error with
  | IsResponse s statusText =>
      (* error instanceof Response *)
      Normal (mkApiError ("HTTP " +:+ pretty s +:+ ": " +:+ statusText) s url
                ((500 <=? s)%Z || (s =? 503)%Z))
  | IsTypeError msg p =>
      (* error instanceof TypeError && error.message.includes('fetch') *)
      if includes "fetch" msg then
        Normal (mkApiError
                  "Unable to connect to server. Please check if the server is running."
                  0 url true)
      else Normal (fromProps (Some msg) p url defaultMessage)
  | Null =>
      (* both instanceof tests are false; error.name throws *)
      Throw (cannotRead "null" "name")
  | Undefined => Throw (cannotRead "undefined" "name")
  | IsApiError e =>
      Normal (fromProps (Some (message e)) (plainProps "ApiError") url defaultMessage)
  | Other msg p => Normal (fromProps msg p url defaultMessage)
  end.

(** [handleApiError]: [createApiError] and a [console.error]. *)
Definition handleApiError (error : ErrorValue) (url : option string)
    : completion ApiError :=
  createApiError error url None.

(** What [response.json()] rejects with: a [SyntaxError] when the body
    is not JSON, a [TypeError] when the connection breaks while the body
    is read. The message is the engine's. *)
Inductive ReadError :=
| NotJson (message : string)
| Broken (message : string).

(** What reading the body of a response does, counted in milliseconds
    from the moment [fetch] resolved: the document arrives and parses,
    the read fails, or the body never comes to its end. *)
Inductive BodyRead :=
| Parses (after_ms : N) (d : json)
| ReadFails (after_ms : N) (e : ReadError)
| ReadStalls.

(** What [fetch] resolves with: the status line, and in [body] what a
    later [response.json()] will do. *)
Record Response := mkResponse {
  resp_status : Z;
  resp_statusText : string;
  body : BodyRead
}.

(** The value a failed read throws. *)
Definition thrown (e : ReadError) : ErrorValue :=
  match e with
  | NotJson m => Other (Some m) (plainProps "SyntaxError")
  | Broken m => IsTypeError m (plainProps "TypeError")
  end.

(** [await response.json()] on a response that [fetch] resolved with at
    [t]: when it settles and with what, [None] when it never does. No
    timer runs during the read: [apiRequest] clears its timer as soon as
    [fetch] resolves. *)
Definition response_json (t : N) (r : Response) : option (N * completion json) :=
  match body r with
  | Parses dt d => Some ((t + dt)%N, Normal d)
  | ReadFails dt e => Some ((t + dt)%N, Throw (thrown e))
  | ReadStalls => None
  end.

(** [response.ok] *)
Definition ok (r : Response) : bool :=
  (200 <=? resp_status r)%Z && (resp_status r <=? 299)%Z.

(** What the network does with one [fetch], on the clock of the page
    (milliseconds after the call). *)
Inductive FetchOutcome :=
| Resolves (at_ms : N) (r : Response)
| Rejects (at_ms : N) (message : string)
| Pending.

(** The [AbortError] that [controller.abort()] makes [fetch] reject with. *)
Definition abortError : ErrorValue :=
  Other (Some "signal is aborted without reason") (plainProps "AbortError").

(** The [catch] block of [apiRequest]: [throw handleApiError(error, url)]. *)
Definition rethrowHandled (error : ErrorValue) (url : string) : ErrorValue :=
  match handleApiError error (Some url) with
  | Normal e => IsApiError e
  | Throw v => v
  end.

(** [apiRequest(url, options, timeout)]: the time at which the returned
    promise settles and what it settles with. [net] is what the network
    does with the request that [options] describes. The timer set to
    [timeout] calls [controller.abort()] unless [fetch] settled before
    it, and is cleared when [fetch] settles; the body of the response is
    not read here; an answer in the very millisecond of the timer
    counts as late. A reply that is not [ok] is turned into an
    [ApiError] inside the [try] block, caught by the function's own
    [catch] and handled a second time. *)
Definition apiRequest (url : string) (net : FetchOutcome) (timeout : option N)
    : N * completion Response :=
  let timeout := default 10000%N timeout in
  match net with
  | Resolves t response =>
      if (t <? timeout)%N then
        if negb (ok response) then
          match createApiError
                  (IsResponse (resp_status response) (resp_statusText response))
                  (Some url) None with
          | Normal e => (t, Throw (rethrowHandled (IsApiError e) url))
          | Throw v => (t, Throw (rethrowHandled v url))
          end
        else (t, Normal response)
      else (timeout, Throw (rethrowHandled abortError url))
  | Rejects t msg =>
      if (t <? timeout)%N then
        (t, Throw (rethrowHandled (IsTypeError msg (plainProps "TypeError")) url))
      else (timeout, Throw (rethrowHandled abortError url))
  | Pending => (timeout, Throw (rethrowHandled abortError url))
  end.

(** [error.message] of a caught value: reading it off [null] or
    [undefined] throws, a [Response] has none. *)
Definition messageOf (error : ErrorValue) : completion (option string) :=
  match error with
  | Null => Throw (cannotRead "null" "message")
  | Undefined => Throw (cannotRead "undefined" "message")
  | IsResponse _ _ => Normal None
  | IsTypeError msg _ => Normal (Some msg)
  | IsApiError e => Normal (Some (message e))
  | Other msg _ => Normal msg
  end.

(** [apiGet(url, timeout)] *)
Definition apiGet (url : string) (net : FetchOutcome) (timeout : option N)
    : N * completion Response :=
  apiRequest url net timeout.

End ApiErrorHandler.

(** ** frontend/src/config/api.ts *)
Module Api.
Import Js ApiErrorHandler.

Record Server := mkServer { url : string; server_name : string }.

Definition BACKEND_SERVERS : list Server :=
  [ mkServer "http://backend-1:8000" "Backend Server 1";
    mkServer "http://backend-2:8001" "Backend Server 2";
    mkServer "http://backend-3:8002" "Backend Server 3" ].

Section WithBaseUrl.
(** [getLoadBalancerUrl()], computed once from [window.location]. *)
Variable API_BASE_URL : string.

(** [makeApiRequest(endpoint, options, timeout = 30000)] *)
Definition makeApiRequest (endpoint : string) (net : FetchOutcome)
    (timeout : option N) : N * completion Response :=
  let timeout := default 30000%N timeout in
  let url := API_BASE_URL +:+ endpoint in
  match apiRequest url net (Some timeout) with
  | (t, Normal response) => (t, Normal response)
  | (t, Throw (IsApiError e)) => (t, Throw (IsApiError e))
  | (t, Throw error) =>
      let msg :=
        match error with
        | IsTypeError m _ => m
        | Other m p => if instanceofError p then default "undefined" m else "Unknown error"
        | _ => "Unknown error"
        end in
      (t, Throw (IsApiError
                   (mkApiError ("Load Balancer request failed: " +:+ msg) 0
                      (Some url) true)))
  end.
End WithBaseUrl.

(** One entry of [checkAllBackendServers]' result. *)
Record ServerCheck := mkCheck {
  check_url : string;
  healthy : bool;
  data : option json
}.

(** The body of the [map] callback: a request with a 5000 ms timeout,
    then [response.json()], which no timer covers. [None] when the
    callback's promise never settles. *)
Definition probe (server : Server) (net : FetchOutcome) : option (N * ServerCheck) :=
  match apiRequest (url server +:+ "/health") net (Some 5000%N) with
  | (t, Normal response) =>
      match response_json t response with
      | Some (t', Normal d) => Some (t', mkCheck (url server) true (Some d))
      | Some (t', Throw _) => Some (t', mkCheck (url server) false None)
      | None => None
      end
  | (t, Throw _) => Some (t, mkCheck (url server) false None)
  end.

(** [checkAllBackendServers()]: the probes run side by side; [nets]
    gives the network's behaviour towards each server. The result is
    the time [Promise.allSettled] settles and the mapped entries, [None]
    when a probe never settles. *)
Definition checkAllBackendServers (nets : Server → FetchOutcome)
    : option (N * list ServerCheck) :=
  results ← mapM (λ server, probe server (nets server)) BACKEND_SERVERS;
  Some (foldr N.max 0%N (map fst results), map snd results).

(** The [ApiError] of a health check that cannot be read. *)
Definition notResponding (base : string) : ErrorValue :=
  IsApiError (mkApiError "Load Balancer is not responding" 0 (Some base) true).

(** [checkLoadBalancerHealth()], for the load balancer at [base]: a
    request to [base/health] with a 10000 ms timeout, then
    [response.json()]; anything thrown that is not an [ApiError] is
    replaced by one. [None] when the promise never settles. *)
Definition checkLoadBalancerHealth (base : string) (net : FetchOutcome)
    : option (N * completion json) :=
  match apiRequest (base +:+ "/health") net (Some 10000%N) with
  | (t, Normal response) =>
      match response_json t response with
      | Some (t', Normal d) => Some (t', Normal d)
      | Some (t', Throw (IsApiError e)) => Some (t', Throw (IsApiError e))
      | Some (t', Throw _) => Some (t', Throw (notResponding base))
      | None => None
      end
  | (t, Throw (IsApiError e)) => Some (t, Throw (IsApiError e))
  | (t, Throw _) => Some (t, Throw (notResponding base))
  end.

(** [getLoadBalancerStats()]: as above for [base/stats], but whatever is
    thrown is thrown on. *)
Definition getLoadBalancerStats (base : string) (net : FetchOutcome)
    : option (N * completion json) :=
  match apiRequest (base +:+ "/stats") net (Some 10000%N) with
  | (t, Normal response) => response_json t response
  | (t, Throw error) => Some (t, Throw error)
  end.

End Api.

(** ** frontend/src/pages/BatchAnalyze.tsx *)
Module BatchAnalyze.
Import Js.

(** [interface BatchFile]; the [File] is kept by its name. *)
Record BatchFile := mkBatchFile {
  file : string;
  preview : string;
  file_status : string
}.

Record Nutrition := mkNutrition {
  calories : QArith_base.Q;
  protein : QArith_base.Q;
  carbs : QArith_base.Q;
  fat : QArith_base.Q
}.

(** [interface BatchResult]; [result_error] is its [error]. *)
Record BatchResult := mkBatchResult {
  filename : string;
  predicted_food : string;
  confidence : QArith_base.Q;
  nutrition : Nutrition;
  result_error : option string
}.

(** [interface BatchStatus]. [status] is whatever string the reply
    holds; [batch_id] is [None] when the reply it was read from has no
    such property. *)
Record BatchStatus := mkBatchStatus {
  batch_id : option string;
  status : string;
  progress : Z;
  total : Z;
  completed : Z;
  results : option (list BatchResult);
  error : option string
}.

(** The [useState] cells the upload and the polling write; [error_] is
    the page's [error] cell. *)
Record State := mkState {
  files : list BatchFile;
  isUploading : bool;
  batchStatus : option BatchStatus;
  error_ : option string
}.

Definition setIsUploading (b : bool) (st : State) : State :=
  mkState (files st) b (batchStatus st) (error_ st).
Definition setBatchStatus (s : option BatchStatus) (st : State) : State :=
  mkState (files st) (isUploading st) s (error_ st).
Definition setError (e : option string) (st : State) : State :=
  mkState (files st) (isUploading st) (batchStatus st) e.

(** What [await makeApiRequest('/batch/upload', ...)] followed by
    [await response.json()] gives: an exception with its [message], or
    the parsed document ([None] for [null], otherwise its [batch_id]
    property). *)
Inductive UploadReply :=
| UploadThrows (message : option string)
| UploadJson (responseData : option (option string)).

(** The [catch] block of [uploadBatch]. *)
Definition uploadFailed (message : option string) (st : State) : State :=
  let errorMessage :=
    if from_option (includes "Load Balancer") false message then
      "Load Balancer is currently unavailable. Please try again later."
    else if from_option (includes "backend servers") false message then
      "All backend servers are currently down. Please try again later."
    else "Failed to upload batch. Please try again." in
  setIsUploading false (setError (Some errorMessage) st).

(** [uploadBatch()]: the state after the upload is answered and, when
    polling is started, the batch id it is started with. *)
Definition uploadBatch (reply : UploadReply) (st : State)
    : State * option (option string) :=
  if bool_decide (length (files st) = 0) then
    (setError (Some "Please select at least one image") st, None)
  else
    let st := setError None (setIsUploading true st) in
    match reply with
    | UploadJson (Some batch_id) =>
        (setBatchStatus
           (Some (mkBatchStatus batch_id "queued" 0 (Z.of_nat (length (files st))) 0
                    None None)) st,
         Some batch_id)
    | UploadJson None =>
        (uploadFailed (Some "Cannot destructure property 'batch_id' of 'responseData' as it is null.") st,
         None)
    | UploadThrows message => (uploadFailed message st, None)
    end.

(** What one status request gives: an exception, or the parsed document
    ([None] for [null]). *)
Inductive PollReply :=
| PollThrows
| PollJson (status : option BatchStatus).

Definition maxPolls : nat := 300.

(** One run of the inner [poll] closure with the given reply: the new
    state and, when [setTimeout(poll, 1000)] is called, the delay and
    the incremented [pollCount]. *)
Definition poll (reply : PollReply) (pollCount : nat) (st : State)
    : State * option (N * nat) :=
  match reply with
  | PollJson (Some s) =>
      let st := setBatchStatus (Some s) st in
      if bool_decide (status s = "completed") || bool_decide (status s = "failed") then
        (setIsUploading false st, None)
      else if bool_decide (pollCount < maxPolls)
              && (bool_decide (status s = "queued")
                  || bool_decide (status s = "processing")) then
        (st, Some (1000%N, S pollCount))
      else
        (setError (Some "Batch processing timed out") (setIsUploading false st), None)
  | PollJson None =>
      let st := setBatchStatus None st in
      (setError (Some "Failed to check batch status") (setIsUploading false st), None)
  | PollThrows =>
      (setError (Some "Failed to check batch status") (setIsUploading false st), None)
  end.

(** What the page does towards the outside while polling. *)
Inductive Event :=
| Fetch (endpoint : string) (reply : PollReply)
| SetTimeout (ms : N).

(** The chain of [poll] runs: [server n] answers the request number [n]
    (counted from 0). [fuel] bounds the number of runs. *)
Fixpoint pollLoop (fuel : nat) (endpoint : string) (server : nat → PollReply)
    (n pollCount : nat) (st : State) : option (State * list Event) :=
  match fuel with
  | 0 => None
  | S fuel' =>
      match poll (server n) pollCount st with
      | (st', None) => Some (st', [Fetch endpoint (server n)])
      | (st', Some (ms, pollCount')) =>
          match pollLoop fuel' endpoint server (S n) pollCount' st' with
          | Some (st'', events) =>
              Some (st'', Fetch endpoint (server n) :: SetTimeout ms :: events)
          | None => None
          end
      end
  end.

(** [pollBatchStatus(batchId)], with [pollCount] starting at 0. *)
Definition pollBatchStatus (batchId : option string) (server : nat → PollReply)
    (st : State) : option (State * list Event) :=
  pollLoop (S maxPolls) ("/batch/status/" +:+ default "undefined" batchId)
    server 0 0 st.

(** [getStatusColor] *)
Definition getStatusColor (status : string) : string :=
  if bool_decide (status = "completed") then "success"
  else if bool_decide (status = "processing") then "warning"
  else if bool_decide (status = "failed") then "error"
  else "info".

(** The "Batch Processing Status" card; the chip shows [status] in upper
    case. *)
Record StatusCard := mkStatusCard {
  chip_label : string;
  chip_color : string;
  card_completed : Z;
  card_total : Z;
  progress_value : Z;
  card_batch_id : option string;
  card_error : option string
}.

(** The parts of the rendered page that depend on the state. *)
Record View := mkView {
  error_alert : option string;
  status_card : option StatusCard;
  results_card : option (list BatchResult)
}.

(** [s && <Alert>{s}</Alert>] for a string or [undefined]. *)
Definition shown (s : option string) : option string :=
  match s with
  | Some m => if bool_decide (m = "") then None else Some m
  | None => None
  end.

Definition render (st : State) : View :=
  {| error_alert := shown (error_ st);
     status_card :=
       s ← batchStatus st;
       Some (mkStatusCard (status s) (getStatusColor (status s))
               (completed s) (total s) (progress s) (batch_id s)
               (shown (error s)));
     results_card :=
       s ← batchStatus st;
       if bool_decide (status s = "completed") then
         match results s with
         | Some rs => if bool_decide (0 < length rs) then Some rs else None
         | None => None
         end
       else None |}.

(** The object URLs of the document. [URL.createObjectURL] hands out a
    URL that it has not handed out before and keeps it alive;
    [URL.revokeObjectURL] releases one. [created] counts the URLs handed
    out so far. *)
Record ObjectUrls := mkObjectUrls {
  created : nat;
  alive : gset string
}.

Definition createObjectURL (urls : ObjectUrls) : string * ObjectUrls :=
  let url := "blob:" +:+ pretty (created urls) in
  (url, mkObjectUrls (S (created urls)) ({[url]} ∪ alive urls)).

Definition revokeObjectURL (url : string) (urls : ObjectUrls) : ObjectUrls :=
  mkObjectUrls (created urls) (alive urls ∖ {[url]}).

Definition setFiles (fs : list BatchFile) (st : State) : State :=
  mkState fs (isUploading st) (batchStatus st) (error_ st).

(** [acceptedFiles.map(file => ({file, preview: URL.createObjectURL(file),
    status: 'waiting'}))] *)
Fixpoint newFiles (acceptedFiles : list string) (urls : ObjectUrls)
    : list BatchFile * ObjectUrls :=
  match acceptedFiles with
  | [] => ([], urls)
  | f :: rest =>
      let '(url, urls) := createObjectURL urls in
      let '(fs, urls) := newFiles rest urls in
      (mkBatchFile f url "waiting" :: fs, urls)
  end.

(** [onDrop(acceptedFiles)] *)
Definition onDrop (acceptedFiles : list string) (page : State * ObjectUrls)
    : State * ObjectUrls :=
  let '(st, urls) := page in
  let '(fs, urls) := newFiles acceptedFiles urls in
  (setError None (setFiles (files st ++ fs) st), urls).

(** [removeFile(index)]; [None] when reading [newFiles[index].preview]
    throws because there is no such entry. *)
Definition removeFile (index : nat) (page : State * ObjectUrls)
    : option (State * ObjectUrls) :=
  let '(st, urls) := page in
  match files st !! index with
  | Some f => Some (setFiles (delete index (files st)) st, revokeObjectURL (preview f) urls)
  | None => None
  end.

(** [files.forEach(file => URL.revokeObjectURL(file.preview))] *)
Definition revokeAll (fs : list BatchFile) (urls : ObjectUrls) : ObjectUrls :=
  foldl (λ urls f, revokeObjectURL (preview f) urls) urls fs.

(** [clearAll()] *)
Definition clearAll (page : State * ObjectUrls) : State * ObjectUrls :=
  let '(st, urls) := page in
  (setError None (setBatchStatus None (setFiles [] st)), revokeAll (files st) urls).

(** The cleanup of the effect with no dependencies: it runs on unmount,
    and the [files] it iterates over are those of the render the effect
    was created in, the first one, where [files] is the initial [[]]. *)
Definition unmount (urls : ObjectUrls) : ObjectUrls :=
  let files := [] in
  revokeAll files urls.

(** What the user does with the file list. *)
Inductive FileAction :=
| Drop (acceptedFiles : list string)
| Remove (index : nat)
| ClearAll.

Definition act (a : FileAction) (page : State * ObjectUrls)
    : option (State * ObjectUrls) :=
  match a with
  | Drop acceptedFiles => Some (onDrop acceptedFiles page)
  | Remove index => removeFile index page
  | ClearAll => Some (clearAll page)
  end.

(** The actions one after the other, as long as none throws. *)
Fixpoint acts (actions : list FileAction) (page : State * ObjectUrls)
    : option (State * ObjectUrls) :=
  match actions with
  | [] => Some page
  | a :: rest => act a page ≫= acts rest
  end.

End BatchAnalyze.

(** Replies whose status is [queued] or [processing]. *)
Definition in_progress (r : BatchAnalyze.PollReply) : bool :=
  match r with
  | BatchAnalyze.PollJson (Some s) =>
      bool_decide (BatchAnalyze.status s = "queued")
      || bool_decide (BatchAnalyze.status s = "processing")
  | _ => false
  end.

(** Replies whose status is [completed] or [failed]. *)
Definition terminal_reply (r : BatchAnalyze.PollReply) : bool :=
  match r with
  | BatchAnalyze.PollJson (Some s) =>
      bool_decide (BatchAnalyze.status s = "completed")
      || bool_decide (BatchAnalyze.status s = "failed")
  | _ => false
  end.

(** The replies seen, the timers set and the requests made in a trace. *)
Definition replies (events : list BatchAnalyze.Event) : list BatchAnalyze.PollReply :=
  omap (λ e, match e with BatchAnalyze.Fetch _ r => Some r | _ => None end) events.

Definition timers (events : list BatchAnalyze.Event) : list N :=
  omap (λ e, match e with BatchAnalyze.SetTimeout ms => Some ms | _ => None end) events.

Definition requests (events : list BatchAnalyze.Event) : nat := length (replies events).

(** A batch status as the back end reports it while the batch runs. *)
Definition processing_status (id : string) (total completed : Z) : BatchAnalyze.BatchStatus :=
  BatchAnalyze.mkBatchStatus (Some id) "processing" 0 total completed None None.

(** The page before anything was uploaded, with the given files picked. *)
Definition fresh_page (files : list BatchAnalyze.BatchFile) : BatchAnalyze.State :=
  BatchAnalyze.mkState files false None None.

(** What a chain of [poll] runs that starts with request number [n] and
    counter [pollCount] in state [st] and ends in [st'] with trace
    [events] looks like. *)
Definition poll_run (server : nat → BatchAnalyze.PollReply) (n pollCount : nat)
    (st st' : BatchAnalyze.State) (events : list BatchAnalyze.Event) : Prop :=
  let m := requests events in
  replies events = map server (seq n m)
  ∧ timers events = replicate (m - 1) 1000%N
  ∧ (1 ≤ m)%nat ∧ (pollCount + m ≤ S BatchAnalyze.maxPolls)%nat
  ∧ (∀ i, S i < m → in_progress (server (n + i)) = true)
  ∧ (in_progress (server (n + (m - 1))) = true →
       pollCount + m = S BatchAnalyze.maxPolls
       ∧ BatchAnalyze.isUploading st' = false
       ∧ BatchAnalyze.error_ st' = Some "Batch processing timed out")
  ∧ (terminal_reply (server (n + (m - 1))) = true →
       BatchAnalyze.isUploading st' = false
       ∧ BatchAnalyze.error_ st' = BatchAnalyze.error_ st
       ∧ BatchAnalyze.PollJson (BatchAnalyze.batchStatus st') = server (n + (m - 1))).

(** ** frontend/src/pages/ServerError.tsx *)
Module ServerError.
Import Js.

(** Evaluating a piece of JSX either gives its content or throws. *)
Inductive rendering (A : Type) :=
| Rendered (a : A)
| RenderThrows (reason : string).
Arguments Rendered {A} a.
Arguments RenderThrows {A} reason.

(** One [<ListItem>] of the server list: the icon and the chip follow
    [server.healthy], the primary text is [server.url], the secondary
    text shows [server.current_load]. *)
Record ServerItem := mkServerItem {
  icon_online : bool;
  primary : json;
  load : json;
  chip_online : bool
}.

(** The "Server Status" card. *)
Record StatusDisplay := mkStatusDisplay {
  load_balancer_online : bool;
  healthy_servers : json;
  total_servers : json;
  total_requests : json;
  server_items : option (list ServerItem)
}.

(** The callback of [serverStatus.servers?.map]. *)
Definition renderServer (server : json) : rendering ServerItem :=
  if nullish server then
    RenderThrows "Cannot read properties of null (reading 'healthy')"
  else
    Rendered (mkServerItem (truthy (get "healthy" server)) (get "url" server)
                (get "current_load" server) (truthy (get "healthy" server))).

Fixpoint renderServers (servers : list json) : rendering (list ServerItem) :=
  match servers with
  | [] => Rendered []
  | server :: rest =>
      match renderServer server with
      | Rendered item =>
          match renderServers rest with
          | Rendered items => Rendered (item :: items)
          | RenderThrows reason => RenderThrows reason
          end
      | RenderThrows reason => RenderThrows reason
      end
  end.

(** [getServerStatusDisplay()] for the given [serverStatus]; [None] is
    the [null] it returns when there is no status. *)
Definition getServerStatusDisplay (serverStatus : json)
    : rendering (option StatusDisplay) :=
  if negb (truthy serverStatus) then Rendered None
  else
    let online :=
      match get "status" serverStatus with
      | JStr s => bool_decide (s = "healthy")
      | _ => false
      end in
    let card :=
      mkStatusDisplay online (get "healthy_servers" serverStatus)
        (get "total_servers" serverStatus)
        (or_else (get "total_requests" serverStatus) (JNum 0)) in
    match get "servers" serverStatus with
    | JUndefined | JNull => Rendered (Some (card None))
    | JArr servers =>
        match renderServers servers with
        | Rendered items => Rendered (Some (card (Some items)))
        | RenderThrows reason => RenderThrows reason
        end
    | _ => RenderThrows "serverStatus.servers?.map is not a function"
    end.

(** The [useState] cells [checkServerHealth] writes; [serverStatus]
    starts as [null]. *)
Record State := mkState {
  serverStatus : json;
  isCheckingHealth : bool
}.

(** [checkServerHealth()] against the load balancer at [base]; the
    [finally] block is reached once the health check has settled. *)
Definition checkServerHealth (base : string) (net : ApiErrorHandler.FetchOutcome)
    (st : State) : ApiErrorHandler.handled State :=
  let st := mkState (serverStatus st) true in
  match Api.checkLoadBalancerHealth base net with
  | Some (_, c) =>
      let st :=
        match c with
        | ApiErrorHandler.Normal health => mkState health (isCheckingHealth st)
        | ApiErrorHandler.Throw _ => mkState JNull (isCheckingHealth st)
        end in
      ApiErrorHandler.Ends (ApiErrorHandler.Normal (mkState (serverStatus st) false))
  | None => ApiErrorHandler.Waits st
  end.

End ServerError.

(** ** start_full_system.sh, "Quick Health Check" of [/stats] *)
Module StartFullSystem.
Import Js.

(** Python's [d[k]] on the loaded document: only a dict with the key
    gives a value, anything else raises. *)
Definition subscript (k : string) (d : json) : option json :=
  match d with
  | JObj fields => assoc_opt fields k
  | _ => None
  end.

(** The lines the inline script prints: a label with the value shown, or
    the fallback line of the bare [except]. Lines printed before a
    failing lookup or a failing [print] stay printed. [None] stands for
    a reply that [json.load] cannot read. *)
Inductive Line :=
| Shown (label : string) (value : json)
| StillStarting.

(** A string holds a lone surrogate. Strings are kept as their UTF-8
    bytes, and a lone surrogate, which a [\ud800]-style escape of the
    JSON text leaves in a Python string, as the three bytes
    [ED A0..BF 80..BF], which UTF-8 text never contains. *)
Fixpoint has_surrogate (s : string) : bool :=
  match s with
  | String a rest =>
      match rest with
      | String b _ =>
          (Ascii.N_of_ascii a =? 237)%N && (160 <=? Ascii.N_of_ascii b)%N && (Ascii.N_of_ascii b <=? 191)%N
      | EmptyString => false
      end
      || has_surrogate rest
  | EmptyString => false
  end.

(** Whether [print] can write the formatted value: it raises when the
    text cannot be encoded for the terminal. The terminal is taken to
    write UTF-8, as the bullet of every line of the script needs; what
    cannot be written then is a lone surrogate, and only a string value
    is formatted as it is (inside a list or a dict it is escaped). *)
Definition printable (v : json) : bool :=
  match v with
  | JStr s => negb (has_surrogate s)
  | _ => true
  end.

(** One [print(f"... {value}")], where the lookups of the value gave
    [v]: the line, or nothing when a lookup or the [print] raised. *)
Definition printed (label : string) (v : option json) : option Line :=
  match v with
  | Some value => if printable value then Some (Shown label value) else None
  | None => None
  end.

Definition quickHealthCheck (reply : option json) : list Line :=
  match reply with
  | None => [StillStarting]
  | Some data =>
      match printed "Total Servers" (subscript "servers" data ≫= subscript "total") with
      | None => [StillStarting]
      | Some total =>
          total ::
          match printed "Healthy Servers"
                  (subscript "servers" data ≫= subscript "healthy") with
          | None => [StillStarting]
          | Some healthy =>
              healthy ::
              match printed "Algorithm"
                      (subscript "load_balancer" data ≫= subscript "algorithm") with
              | None => [StillStarting]
              | Some algorithm =>
                  algorithm ::
                  match printed "Next Server" (subscript "next_server" data) with
                  | None => [StillStarting]
                  | Some next => [next]
                  end
              end
          end
      end
  end.

End StartFullSystem.

(** Erasing from a document every property but the listed ones, and
    rewriting the value of one property. *)
Definition keep (keys : list string) (d : Js.json) : Js.json :=
  match d with
  | Js.JObj fields => Js.JObj (filter (λ kv, kv.1 ∈ keys) fields)
  | _ => d
  end.

Definition on (k : string) (f : Js.json → Js.json) (d : Js.json) : Js.json :=
  match d with
  | Js.JObj fields =>
      Js.JObj (map (λ kv, if bool_decide (kv.1 = k) then (kv.1, f kv.2) else kv) fields)
  | _ => d
  end.

Definition each (f : Js.json → Js.json) (d : Js.json) : Js.json :=
  match d with
  | Js.JArr items => Js.JArr (map f items)
  | _ => d
  end.

(** The properties of a [/health] reply that the status card is built
    from, and those of a [/stats] reply that the start script prints. *)
Definition health_fields : list string :=
  ["status"; "healthy_servers"; "total_servers"; "total_requests"; "servers"].
Definition server_fields : list string := ["healthy"; "url"; "current_load"].

Definition health_only (d : Js.json) : Js.json :=
  on "servers" (each (keep server_fields)) (keep health_fields d).

Definition stats_only (d : Js.json) : Js.json :=
  on "servers" (keep ["total"; "healthy"])
    (on "load_balancer" (keep ["algorithm"])
       (keep ["servers"; "load_balancer"; "next_server"] d)).

(** Adding a property in front of a document's table. *)
Definition put (k : string) (v : Js.json) (d : Js.json) : Js.json :=
  match d with
  | Js.JObj fields => Js.JObj ((k, v) :: fields)
  | _ => d
  end.

(** A [/health] reply and a [/stats] reply with the field names of the
    interface description. *)
Definition health_as_described : Js.json :=
  Js.JObj [("status", Js.JStr "healthy"); ("healthyCount", Js.JNum 3);
           ("totalCount", Js.JNum 3);
           ("perWorker",
            Js.JArr [Js.JObj [("name", Js.JStr "Backend Server 1");
                              ("url", Js.JStr "http://localhost:8000");
                              ("healthy", Js.JBool true);
                              ("currentLoad", Js.JNum 0)]])].

Definition stats_as_described : Js.json :=
  Js.JObj [("algorithm", Js.JStr "round-robin");
           ("nextWorker", Js.JStr "Backend Server 1");
           ("perWorkerServedCount", Js.JArr [Js.JNum 2; Js.JNum 2; Js.JNum 2])].

(** The replies of the load balancer guide. *)
Definition health_of_guide : Js.json :=
  Js.JObj [("status", Js.JStr "healthy"); ("load_balancer", Js.JStr "running");
           ("port", Js.JNum 9000); ("healthy_servers", Js.JNum 3);
           ("total_servers", Js.JNum 3);
           ("servers",
            Js.JArr [Js.JObj [("name", Js.JStr "Backend Server 1");
                              ("url", Js.JStr "http://localhost:8000");
                              ("healthy", Js.JBool true)]])].

Definition stats_of_guide : Js.json :=
  Js.JObj [("load_balancer",
            Js.JObj [("port", Js.JNum 9000); ("status", Js.JStr "running");
                     ("algorithm", Js.JStr "round-robin")]);
           ("servers",
            Js.JObj [("total", Js.JNum 3); ("healthy", Js.JNum 3);
                     ("unhealthy", Js.JNum 0)]);
           ("next_server", Js.JStr "Backend Server 1");
           ("current_index", Js.JNum 0)].

(** Setting the property at a path of nested objects; the new binding
    goes in front and hides an older one. *)
Fixpoint put_at (path : list string) (v : Js.json) (d : Js.json) : Js.json :=
  match path with
  | [] => v
  | k :: path' =>
      put k (put_at path' v (Js.get k d))
        (match d with Js.JObj _ => d | _ => Js.JObj [] end)
  end.

(** The paths of a [/stats] reply that the start script prints. *)
Definition stats_paths : list (list string) :=
  [["servers"; "total"]; ["servers"; "healthy"]; ["load_balancer"; "algorithm"];
   ["next_server"]].

(** A [/health] reply listing one server that has only the property [k]. *)
Definition one_server (fields : list (string * Js.json)) : Js.json :=
  Js.JObj [("servers", Js.JArr [Js.JObj fields])].

(** ** Batch store and worker tasks (back end, not in the tree) *)
Module BatchStore.

(** Modelled from the spec: the batch record of section 3, whose store
    lives in the Python back end. *)
Inductive Status := queued | processing | completed | failed.

(** Modelled from the spec: an item's result, a nutrition payload on
    success or a message on error (section 3, ItemResult). *)
Inductive ItemResult :=
| success (label : string) (calories protein carbs fat confidence : QArith_base.Q)
| error (message : string).

(** Modelled from the spec: [Batch] of section 3; [results] is keyed by
    the item's index, [fault] is the stored error of a failed batch. *)
Record Batch := mkBatch {
  status : Status;
  total : nat;
  completedCount : nat;
  results : gmap nat ItemResult;
  fault : option string
}.

(** Modelled from the spec: "Both completed and failed are terminal". *)
Definition terminal (s : Status) : bool :=
  match s with
  | completed | failed => true
  | queued | processing => false
  end.

(** Modelled from the spec: the edges of the state machine of section
    4.5, [queued -> processing -> completed] and
    [queued | processing -> failed]. *)
Definition permitted (old new : Status) : bool :=
  match old, new with
  | queued, processing | processing, completed
  | queued, failed | processing, failed => true
  | _, _ => false
  end.

(** Modelled from the spec: [createBatch(total)], "status starts queued". *)
Definition createBatch (total : nat) : Batch :=
  mkBatch queued total 0 ∅ None.

(** Modelled from the spec: the acceptance of [POST /batch/upload] with
    [total] items (sections 3, 4.5 and 6): the batch is "created
    atomically when a batch submission is accepted (before any item is
    dispatched)" under "a generated unique batch identifier", which the
    reply carries. *)
Definition submit (total : nat) (store : gmap string Batch)
    : string * gmap string Batch :=
  let batchId := fresh (dom store) in
  (batchId, <[batchId := createBatch total]> store).

(** Modelled from the spec: [transitionStatus], "only forward transitions
    permitted", anything else is a no-op. *)
Definition transitionStatus (new : Status) (b : Batch) : Batch :=
  if permitted (status b) new
  then mkBatch new (total b) (completedCount b) (results b) (fault b)
  else b.

(** Modelled from the spec: [upsertResult], an upsert keyed by the item. *)
Definition upsertResult (item : nat) (r : ItemResult) (b : Batch) : Batch :=
  mkBatch (status b) (total b) (completedCount b) (<[item := r]> (results b)) (fault b).

(** Modelled from the spec: [incrementCompleted], one atomic step. *)
Definition incrementCompleted (b : Batch) : Batch :=
  mkBatch (status b) (total b) (S (completedCount b)) (results b) (fault b).

(** Modelled from the spec: the first task taken off the queue moves the
    batch to [processing]. *)
Definition taskDequeued (b : Batch) : Batch := transitionStatus processing b.

(** Modelled from the spec: what a worker does once an item is processed
    (section 4.4): a frozen batch is left alone; a result for an item
    that already has one is overwritten without counting again (sections
    3 and 4.3); otherwise the result is written, the counter is
    incremented, and the batch completes when the counter reaches
    [total]. *)
Definition itemDone (item : nat) (r : ItemResult) (b : Batch) : Batch :=
  if terminal (status b) then b
  else
    match results b !! item with
    | Some _ => upsertResult item r b
    | None =>
        let b := incrementCompleted (upsertResult item r b) in
        if bool_decide (completedCount b = total b)
        then transitionStatus completed b
        else b
    end.

(** Modelled from the spec: a submission or dispatch fault fails the
    whole batch "with a stored error" (sections 4.4 and 4.5). *)
Definition submissionFault (message : string) (b : Batch) : Batch :=
  if permitted (status b) failed
  then mkBatch failed (total b) (completedCount b) (results b) (Some message)
  else b.

(** Modelled from the spec: what can happen to a batch after it was
    created. Workers run side by side; each of their steps on the batch
    is atomic, so a run is a sequence of these. *)
Inductive Event :=
| Dequeued
| ItemDone (item : nat) (r : ItemResult)
| SubmissionFault (message : string).

(** Modelled from the spec: the effect of one event on the batch. *)
Definition step (b : Batch) (e : Event) : Batch :=
  match e with
  | Dequeued => taskDequeued b
  | ItemDone item r => itemDone item r b
  | SubmissionFault message => submissionFault message b
  end.

(** Modelled from the spec: the batch after a sequence of events. *)
Definition run (events : list Event) (b : Batch) : Batch := foldl step b events.

(** Modelled from the spec: the body of [GET /batch/status/{batchId}]
    (section 6). *)
Record StatusResponse := mkStatusResponse {
  resp_status : Status;
  resp_total : nat;
  resp_completed : nat;
  resp_results : option (list (nat * ItemResult));
  resp_error : option string
}.

(** Modelled from the spec: the reply built from the stored batch,
    "results populated only once status == completed"; the results are
    listed by item index, and the error is the stored one. *)
Definition statusResponse (b : Batch) : StatusResponse :=
  mkStatusResponse (status b) (total b) (completedCount b)
    (match status b with
     | completed =>
         Some (omap (λ i, (λ r, (i, r)) <$> results b !! i) (seq 0 (total b)))
     | _ => None
     end)
    (fault b).

(** Modelled from the spec: the error of a status query for an unknown
    id (section 7). *)
Inductive BatchNotFoundError := batchNotFound (batchId : string).

(** Modelled from the spec: [getStatus(batchId)] over the store, which
    "fails with BatchNotFoundError for an unknown id". *)
Definition getStatus (store : gmap string Batch) (batchId : string)
    : BatchNotFoundError + StatusResponse :=
  match store !! batchId with
  | Some b => inr (statusResponse b)
  | None => inl (batchNotFound batchId)
  end.

End BatchStore.

(** A task belongs to the batch: its item is one of the [total] items. *)
Definition of_batch (total : nat) (e : BatchStore.Event) : Prop :=
  match e with
  | BatchStore.ItemDone item _ => item < total
  | _ => True
  end.

(** An event is the completion of an item: the first result written for
    that item while the batch is not frozen. *)
Definition completes_item (b : BatchStore.Batch) (e : BatchStore.Event) : Prop :=
  match e with
  | BatchStore.ItemDone item _ =>
      BatchStore.terminal (BatchStore.status b) = false
      ∧ BatchStore.results b !! item = None
  | _ => False
  end.

(** The status stays or moves along an edge of the state machine. *)
Definition forward (old new : BatchStore.Status) : Prop :=
  old = new ∨ BatchStore.permitted old new = true.

(** Modelled from the spec: how the status and an item's result travel
    to the page (section 6 and the page's [BatchStatus]): the status by
    its name, a result as a [BatchResult] whose [error] is set on an
    error outcome (the page reads nothing else of such a result);
    [names] gives the file name of each item and [progress] is the
    progress figure sent along. First the name of a status. *)
Definition status_name (s : BatchStore.Status) : string :=
  match s with
  | BatchStore.queued => "queued"
  | BatchStore.processing => "processing"
  | BatchStore.completed => "completed"
  | BatchStore.failed => "failed"
  end.

(** Modelled from the spec: an item's result as the page's
    [BatchResult]. *)
Definition result_on_wire (names : nat → string) (ir : nat * BatchStore.ItemResult)
    : BatchAnalyze.BatchResult :=
  match ir.2 with
  | BatchStore.success label calories protein carbs fat confidence =>
      BatchAnalyze.mkBatchResult (names ir.1) label confidence
        (BatchAnalyze.mkNutrition calories protein carbs fat) None
  | BatchStore.error message =>
      let zero := QArith_base.Qmake 0 1 in
      BatchAnalyze.mkBatchResult (names ir.1) "" zero
        (BatchAnalyze.mkNutrition zero zero zero zero) (Some message)
  end.

(** Modelled from the spec: the status reply as the page's
    [BatchStatus]. *)
Definition status_on_wire (batchId : string) (names : nat → string) (progress : Z)
    (r : BatchStore.StatusResponse) : BatchAnalyze.BatchStatus :=
  BatchAnalyze.mkBatchStatus (Some batchId) (status_name (BatchStore.resp_status r))
    progress
    (Z.of_nat (BatchStore.resp_total r)) (Z.of_nat (BatchStore.resp_completed r))
    (map (result_on_wire names) <$> BatchStore.resp_results r)
    (BatchStore.resp_error r).

(** Modelled from the spec: the reply [{batchId}] of an accepted
    submission (section 6) as the page receives it; the page reads the
    id under the name [batch_id]. *)
Definition accepted_reply (batchId : string) : BatchAnalyze.UploadReply :=
  BatchAnalyze.UploadJson (Some (Some batchId)).

(** What holds of a batch of [T] items throughout its life. *)
Definition batch_inv (T : nat) (b : BatchStore.Batch) : Prop :=
  BatchStore.total b = T
  ∧ BatchStore.completedCount b = size (BatchStore.results b)
  ∧ (∀ item, is_Some (BatchStore.results b !! item) → item < T).

(** Only a failed batch stores an error. *)
Definition fault_inv (b : BatchStore.Batch) : Prop :=
  is_Some (BatchStore.fault b) → BatchStore.status b = BatchStore.failed.

(** ** Request router and worker registry (back end, not in the tree) *)
Module Router.

(** Modelled from the spec: [Worker] of section 3; the load balancer
    itself is a Python program outside the tree. *)
Record Worker := mkWorker {
  name : string;
  url : string;
  healthy : bool;
  currentLoad : nat;
  totalServed : nat;
  lastCheckedAt : N
}.

(** Modelled from the spec: the registry in registration order, with the
    router's statistics (section 3, RouterStats): the requests routed and
    the round-robin cursor, an index into the worker list. *)
Record Router := mkRouter {
  workers : list Worker;
  cursor : nat;
  totalRouted : nat
}.

(** Modelled from the spec: [listHealthy()] of section 4.1. *)
Definition listHealthy (ws : list Worker) : list Worker := List.filter healthy ws.

(** Modelled from the spec: the health monitor writes the flag and the
    time of the check. *)
Definition setHealthy (b : bool) (now : N) (w : Worker) : Worker :=
  mkWorker (name w) (url w) b (currentLoad w) (totalServed w) now.

(** Modelled from the spec: [markHealthy(id)] of section 4.1. *)
Definition markHealthy (i : nat) (now : N) (ws : list Worker) : list Worker :=
  alter (setHealthy true now) i ws.

(** Modelled from the spec: [markUnhealthy(id)] of section 4.1. *)
Definition markUnhealthy (i : nat) (now : N) (ws : list Worker) : list Worker :=
  alter (setHealthy false now) i ws.

(** Modelled from the spec: [recordDispatch(id)], "load was incremented
    at dispatch time". *)
Definition recordDispatch (i : nat) (ws : list Worker) : list Worker :=
  alter (λ w, mkWorker (name w) (url w) (healthy w) (S (currentLoad w))
                (totalServed w) (lastCheckedAt w)) i ws.

(** Modelled from the spec: [recordCompletion(id)], "successful
    responses increment that worker's served counter and decrement its
    load counter". *)
Definition recordCompletion (i : nat) (ws : list Worker) : list Worker :=
  alter (λ w, mkWorker (name w) (url w) (healthy w) (pred (currentLoad w))
                (S (totalServed w)) (lastCheckedAt w)) i ws.

(** Modelled from the spec: one tick of the health monitor (section
    4.1); [alive i] tells whether worker [i] passes its probe, and a
    worker is marked at once, without hysteresis. *)
Definition healthCheck (alive : nat → bool) (now : N) (r : Router) : Router :=
  mkRouter (imap (λ i w, setHealthy (alive i) now w) (workers r))
    (cursor r) (totalRouted r).

(** Modelled from the spec: "select the next candidate after the cursor
    (wrapping)": the first healthy worker met from position [pos] on,
    going round the list in registration order, within [fuel] positions. *)
Fixpoint scan (ws : list Worker) (fuel pos : nat) : option nat :=
  match fuel with
  | 0 => None
  | S fuel' =>
      match ws !! (pos mod length ws) with
      | Some w => if healthy w then Some (pos mod length ws) else scan ws fuel' (S pos)
      | None => None
      end
  end.

(** Modelled from the spec: the selection for one attempt, a scan of
    the whole list from the cursor. *)
Definition select (r : Router) : option nat :=
  scan (workers r) (length (workers r)) (cursor r).

(** Modelled from the spec: "advance the cursor": past the selected
    worker, wrapping. *)
Definition advance (selected : nat) (r : Router) : Router :=
  mkRouter (workers r) (S selected mod length (workers r)) (totalRouted r).

(** Modelled from the spec: the two failures of [route] (section 4.2). *)
Inductive RouteError := NoHealthyWorkerError | AllAttemptsFailedError.

(** Modelled from the spec: the attempts of one [route] call (section
    4.2). [responds i] tells whether worker [i] answers this request
    without a transport failure or a 5xx reply. A worker that fails is
    marked unhealthy at once and the next candidate is tried. *)
Fixpoint attempt (budget : nat) (responds : nat → bool) (now : N) (r : Router)
    : Router * (RouteError + nat) :=
  match budget with
  | 0 => (r, inl AllAttemptsFailedError)
  | S budget' =>
      match select r with
      | None => (r, inl AllAttemptsFailedError)
      | Some i =>
          let r := advance i r in
          let r := mkRouter (recordDispatch i (workers r)) (cursor r) (totalRouted r) in
          if responds i then
            (mkRouter (recordCompletion i (workers r)) (cursor r) (totalRouted r), inr i)
          else
            attempt budget' responds now
              (mkRouter (markUnhealthy i now (workers r)) (cursor r) (totalRouted r))
      end
  end.

(** Modelled from the spec: [route(request)], failing fast with
    [NoHealthyWorkerError] and trying at most
    [min(healthyCount, maxRetries)] workers. *)
Definition route (maxRetries : nat) (responds : nat → bool) (now : N) (r : Router)
    : Router * (RouteError + nat) :=
  let healthyCount := length (listHealthy (workers r)) in
  if bool_decide (healthyCount = 0) then (r, inl NoHealthyWorkerError)
  else
    attempt (healthyCount `min` maxRetries) responds now
      (mkRouter (workers r) (cursor r) (S (totalRouted r))).

(** Modelled from the spec: [n] requests routed one after the other,
    each answered by whichever worker it is sent to. *)
Fixpoint routeAll (maxRetries n : nat) (now : N) (r : Router) : Router :=
  match n with
  | 0 => r
  | S n' => routeAll maxRetries n' now (route maxRetries (λ _, true) now r).1
  end.

(** Modelled from the spec: the per-worker served counts of the
    statistics. *)
Definition served (r : Router) : list nat := map totalServed (workers r).

End Router.

(** Three workers as in the guide, all healthy, nothing served yet. *)
Definition three_workers : list Router.Worker :=
  [ Router.mkWorker "Backend Server 1" "http://localhost:8000" true 0 0 0;
    Router.mkWorker "Backend Server 2" "http://localhost:8001" true 0 0 0;
    Router.mkWorker "Backend Server 3" "http://localhost:8002" true 0 0 0 ].

(** Positions on the worker list unrolled: position [p] stands for the
    worker at index [p mod n]. Over the health flags [hs] of the workers,
    [healthy_at] is the health at a position, [hits i a len] counts the
    positions of [[a, a + len)] that stand for a healthy worker [i], and
    [healthy_in a len] those that stand for any healthy worker. *)
Definition healthy_at (hs : list bool) (p : nat) : bool :=
  default false (hs !! (p mod length hs)).

Fixpoint hits (hs : list bool) (i a len : nat) : nat :=
  match len with
  | 0 => 0
  | S len' =>
      (if bool_decide (a mod length hs = i) && healthy_at hs a then 1 else 0)
      + hits hs i (S a) len'
  end.

Fixpoint healthy_in (hs : list bool) (a len : nat) : nat :=
  match len with
  | 0 => 0
  | S len' => (if healthy_at hs a then 1 else 0) + healthy_in hs (S a) len'
  end.

(** The health flags of the registry, in registration order. *)
Definition flags (r : Router.Router) : list bool :=
  map Router.healthy (Router.workers r).

(** The counter of worker [i], and 0 beyond the list. *)
Definition served_by (r : Router.Router) (i : nat) : nat :=
  from_option Router.totalServed 0 (Router.workers r !! i).

(** After [t] requests that started from [r0], the router [r] has moved
    its cursor over [len] positions holding [t] healthy ones, and each
    counter has grown by the hits of its worker among them. *)
Definition routed (r0 : Router.Router) (t : nat) (r : Router.Router) : Prop :=
  ∃ len,
    flags r = flags r0
    ∧ Router.cursor r mod length (flags r0)
      = (Router.cursor r0 + len) mod length (flags r0)
    ∧ (t = 0 ∨ Router.cursor r < length (flags r0))
    ∧ healthy_in (flags r0) (Router.cursor r0) len = t
    ∧ ∀ i, served_by r i = served_by r0 i + hits (flags r0) i (Router.cursor r0) len.

(** The requests worker [i] served between [r] and [r']. *)
Definition served_since (r r' : Router.Router) (i : nat) : nat :=
  served_by r' i - served_by r i.

(** The two credential pairs of the demo accounts. *)
Definition demo_credentials (email password : string) : Prop :=
  (email = "admin@food.com" ∧ password = "admin123")
  ∨ (email = "user@food.com" ∧ password = "user123").

(** [fetch] settles on its own strictly before the timer of [timeout] ms. *)
Definition settles_before (net : ApiErrorHandler.FetchOutcome) (timeout : N) : Prop :=
  match net with
  | ApiErrorHandler.Resolves t _ | ApiErrorHandler.Rejects t _ => (t < timeout)%N
  | ApiErrorHandler.Pending => False
  end.

(** The [ApiError] a request ends with when its timer aborts it. *)
Definition cancelled (url : string) : ApiErrorHandler.ErrorValue :=
  ApiErrorHandler.IsApiError
    (ApiErrorHandler.mkApiError "Request was cancelled" 0 (Some url) false).

(** ** frontend/src/App.tsx *)
Module App.

Inductive Page :=
| LoginPage
| HomePage
| AnalyzePage
| BatchAnalyzePage
| HistoryPage
| DashboardPage
| ServerErrorPage.

Section WithMatcher.
(** The router's test of a route pattern against the location. *)
Variable matchPath : string → string → bool.

(** The [<Route>] elements of [AppContent] other than the catch-all, in
    the order they are written; the dashboard route exists for an admin
    only. *)
Definition routes (isAdmin : bool) : list (string * Page) :=
  [("/", HomePage); ("/analyze", AnalyzePage); ("/batch-analyze", BatchAnalyzePage);
   ("/history", HistoryPage)]
  ++ (if isAdmin then [("/dashboard", DashboardPage)] else [])
  ++ [("/server-error", ServerErrorPage)].

Fixpoint firstMatch (rs : list (string * Page)) (pathname : string) : option Page :=
  match rs with
  | [] => None
  | (pattern, page) :: rest =>
      if matchPath pattern pathname then Some page else firstMatch rest pathname
  end.

(** [<Routes>]: the route that matches, and the catch-all [path="*"]
    (the home page) when none does. *)
Definition Routes (isAdmin : bool) (pathname : string) : Page :=
  default HomePage (firstMatch (routes isAdmin) pathname).

(** [AppContent]: the login form when nobody is signed in, the routed
    page under the navigation bar otherwise. *)
Definition AppContent (auth : AuthContext.AuthState) (pathname : string) : Page :=
  if negb (AuthContext.isAuthenticated auth) then LoginPage
  else Routes (AuthContext.isAdmin auth) pathname.

End WithMatcher.
End App.

(** ** frontend/src/components/Navbar.tsx *)
Module Navbar.

Record MenuItem := mkItem { text : string; path : string }.

(** [getMenuItems()] *)
Definition getMenuItems (isAdmin isAuthenticated : bool) : list MenuItem :=
  let baseItems :=
    [mkItem "Home" "/"; mkItem "Analyze" "/analyze";
     mkItem "Batch Analyze" "/batch-analyze"] in
  let userItems := [mkItem "History" "/history"] in
  let adminItems := [mkItem "Dashboard" "/dashboard"] in
  if isAdmin then baseItems ++ userItems ++ adminItems
  else if isAuthenticated then baseItems ++ userItems
  else baseItems.

(** [handleRoleSwitch(role)], as far as the authentication goes. *)
Definition handleRoleSwitch (role : AuthContext.UserRole) (auth : AuthContext.AuthState)
    : AuthContext.AuthState :=
  AuthContext.switchRole (Some role) auth.

(** [handleLogout()], as far as the authentication goes. *)
Definition handleLogout (auth : AuthContext.AuthState) : AuthContext.AuthState :=
  AuthContext.logout auth.

End Navbar.

(** ** frontend/src/components/Login.tsx *)
Module Login.

Record State := mkState {
  email : string;
  password : string;
  error : string;
  loading : bool
}.

Definition setError (e : string) (st : State) : State :=
  mkState (email st) (password st) e (loading st).
Definition setLoading (b : bool) (st : State) : State :=
  mkState (email st) (password st) (error st) b.

(** [handleSubmit]: the form state and the authentication state after
    the submission. [login] does not throw, so the [catch] block is
    never entered. *)
Definition handleSubmit (st : State) (auth : AuthContext.AuthState)
    : State * AuthContext.AuthState :=
  let st := setLoading true (setError "" st) in
  let (success, auth') := AuthContext.login (email st) (password st) auth in
  let st := if negb success then setError "Invalid email or password" st else st in
  (setLoading false st, auth').

(** [handleDemoLogin(demoEmail, demoPassword)] *)
Definition handleDemoLogin (demoEmail demoPassword : string) (st : State)
    (auth : AuthContext.AuthState) : State * AuthContext.AuthState :=
  let st := setLoading true (mkState demoEmail demoPassword "" (loading st)) in
  let (success, auth') := AuthContext.login demoEmail demoPassword auth in
  let st := if negb success then setError "Demo login failed" st else st in
  (setLoading false st, auth').

End Login.

(** What a user can do to the authentication state, and the state on a
    first visit. *)
Inductive AuthAction :=
| DoLogin (email password : string)
| DoLogout
| DoSwitchRole (role : option AuthContext.UserRole).

Definition auth_step (st : AuthContext.AuthState) (a : AuthAction) : AuthContext.AuthState :=
  match a with
  | DoLogin email password => (AuthContext.login email password st).2
  | DoLogout => AuthContext.logout st
  | DoSwitchRole role => AuthContext.switchRole role st
  end.

Definition signed_out : AuthContext.AuthState := AuthContext.mkAuth None None.

(** A user record is one of the mock accounts, whatever its role. *)
Definition mock_account (u : AuthContext.User) : Prop :=
  ∃ u0, AuthContext.prop_of AuthContext.mockUsers (AuthContext.email u) = Some u0
        ∧ AuthContext.id u = AuthContext.id u0
        ∧ AuthContext.name u = AuthContext.name u0
        ∧ is_Some (AuthContext.role u).

(** The patterns of the static routes never match one another's path,
    and each matches its own. *)
Definition static_paths : list string :=
  ["/"; "/analyze"; "/batch-analyze"; "/history"; "/dashboard"; "/server-error"].

Definition exact_on_static (matchPath : string → string → bool) : Prop :=
  ∀ p q, p ∈ static_paths → q ∈ static_paths →
         matchPath p q = bool_decide (p = q).

(** ** frontend/src/context/ErrorContext.tsx *)
Module ErrorContext.
Import ApiErrorHandler.



(** [clearError()] *)
Definition clearError (_ : option ApiError) : option ApiError := None.

End ErrorContext.

(** ** frontend/src/pages/Home.tsx *)
Module Home.
Import Js ApiErrorHandler.

(** [healthStatus] starts as [null]. *)
Record State := mkState {
  healthStatus : json;
  healthError : option string
}.

(** [testConnection()] against the load balancer at [base]. Reading
    [error.message] in the [catch] block can itself throw. While the
    health check is awaited the error is already cleared. *)
Definition testConnection (base : string) (net : FetchOutcome) (st : State)
    : handled State :=
  let st := mkState (healthStatus st) None in
  match Api.checkLoadBalancerHealth base net with
  | Some (_, Normal health) => Ends (Normal (mkState health (healthError st)))
  | Some (_, Throw error) =>
      match messageOf error with
      | Normal m => Ends (Normal (mkState (healthStatus st)
                                    (Some (str_or m "Connection test failed"))))
      | Throw v => Ends (Throw v)
      end
  | None => Waits st
  end.

(** The two alerts of the page: the success alert is there when
    [healthStatus] is truthy, the error alert when [healthError] is. *)
Definition successAlert (st : State) : bool := truthy (healthStatus st).

Definition errorAlert (st : State) : option string :=
  match healthError st with
  | Some m => if bool_decide (m = "") then None else Some m
  | None => None
  end.

End Home.

(** A reply that [fetch] resolves with before the timer, that is [ok]
    and whose body, whenever it has arrived, is the JSON document [d]. *)
Definition answers_json (net : ApiErrorHandler.FetchOutcome) (timeout : N) (d : Js.json)
    : Prop :=
  ∃ t r dt, net = ApiErrorHandler.Resolves t r ∧ (t < timeout)%N
            ∧ ApiErrorHandler.ok r = true
            ∧ ApiErrorHandler.body r = ApiErrorHandler.Parses dt d.

(** A reply that [fetch] resolves with before the timer, that is [ok],
    and whose body never comes to its end. *)
Definition body_stalls (net : ApiErrorHandler.FetchOutcome) (timeout : N) : Prop :=
  ∃ t r, net = ApiErrorHandler.Resolves t r ∧ (t < timeout)%N
         ∧ ApiErrorHandler.ok r = true
         ∧ ApiErrorHandler.body r = ApiErrorHandler.ReadStalls.

(** The time the reading of the body takes, where there is a body and
    its reading ends. *)
Definition body_time (net : ApiErrorHandler.FetchOutcome) : N :=
  match net with
  | ApiErrorHandler.Resolves _ r =>
      match ApiErrorHandler.body r with
      | ApiErrorHandler.Parses dt _ | ApiErrorHandler.ReadFails dt _ => dt
      | ApiErrorHandler.ReadStalls => 0%N
      end
  | _ => 0%N
  end.

(** The network fails the request before the timer with a message that
    mentions [fetch], as browsers word a refused connection. *)
Definition fetch_fails (net : ApiErrorHandler.FetchOutcome) (timeout : N) : Prop :=
  ∃ t msg, net = ApiErrorHandler.Rejects t msg ∧ (t < timeout)%N
           ∧ Js.includes "fetch" msg = true.

(** ** frontend/src/components/LazyImage.tsx *)
Module LazyImage.

(** The three [useState] cells, and whether the observer created on
    mount is still connected. *)
Record State := mkState {
  isLoaded : bool;
  isInView : bool;
  hasError : bool;
  observing : bool
}.

(** After the first render and its effect: the box is observed. *)
Definition mounted : State := mkState false false false true.

Definition handleLoad (st : State) : State :=
  mkState true (isInView st) (hasError st) (observing st).

Definition handleError (st : State) : State :=
  mkState true (isInView st) true (observing st).

(** The callback of the [IntersectionObserver]. *)
Definition observed (isIntersecting : bool) (st : State) : State :=
  if isIntersecting then mkState (isLoaded st) true (hasError st) false else st.

(** What is rendered: the skeleton, and the [<img>] with its [src] and
    whether it is opaque. *)
Record View := mkView {
  skeleton : bool;
  img : option (string * bool)
}.

Definition render (src fallback : string) (st : State) : View :=
  {| skeleton := negb (isLoaded st);
     img := if isInView st then Some (if hasError st then fallback else src, isLoaded st)
            else None |}.

(** What can happen to the component: the observer reports an entry, the
    image loads, the image fails. *)
Inductive Event :=
| Intersects (isIntersecting : bool)
| Loads
| Fails.

(** The observer calls back only while connected; [onLoad] and [onError]
    come from the [<img>], which is there only when [isInView]. *)
Definition dispatch (st : State) (e : Event) : State :=
  match e with
  | Intersects isIntersecting => if observing st then observed isIntersecting st else st
  | Loads => if isInView st then handleLoad st else st
  | Fails => if isInView st then handleError st else st
  end.

End LazyImage.

(** ** Statements about the batch page, the status card and the scripts *)


(** The batch page as it is mounted: no file, no object URL. *)
Definition mounted_page : BatchAnalyze.State * BatchAnalyze.ObjectUrls :=
  (fresh_page [], BatchAnalyze.mkObjectUrls 0 ∅).

(** The preview URLs of the listed files. *)
Definition previews (st : BatchAnalyze.State) : list string :=
  BatchAnalyze.preview <$> BatchAnalyze.files st.


(** The value under a path of keys in a document, if every key along the
    path is there. *)
Definition at_path (path : list string) (d : Js.json) : option Js.json :=
  foldl (λ o k, o ≫= StartFullSystem.subscript k) (Some d) path.

(** The reply has, under each of the four paths the quick health check
    prints, a value that can be printed. *)
Definition has_all_stats (reply : option Js.json) : Prop :=
  ∃ data, reply = Some data
          ∧ Forall (λ path, ∃ v, at_path path data = Some v
                                 ∧ StartFullSystem.printable v = true) stats_paths.

(** The states of a lazy image along a run of events, from the mounted
    component on. *)
Definition lazy_run (events : list LazyImage.Event) : LazyImage.State :=
  foldl LazyImage.dispatch LazyImage.mounted events.

(** What holds of the page whatever was dropped, removed or cleared. *)
Definition files_inv (page : BatchAnalyze.State * BatchAnalyze.ObjectUrls) : Prop :=
  NoDup (previews page.1)
  ∧ BatchAnalyze.alive page.2 = list_to_set (previews page.1)
  ∧ Forall (λ url, ∃ k, k < BatchAnalyze.created page.2 ∧ url = "blob:" +:+ pretty k) (previews page.1).

(** ** frontend/src/pages/Analyze.tsx: the preview of the dropped image *)
Module Analyze.

(** The cleanup of the effect that depends on [previewUrl], for the
    value of [previewUrl] it was created with. *)
Definition cleanup (previewUrl : option string) (urls : BatchAnalyze.ObjectUrls)
    : BatchAnalyze.ObjectUrls :=
  match previewUrl with
  | Some url => if bool_decide (url = "") then urls
                else BatchAnalyze.revokeObjectURL url urls
  | None => urls
  end.

(** What [onDrop(acceptedFiles)] does to [previewUrl] and to the object
    URLs, up to the render that follows: a new URL is made for the first
    file and stored, and since [previewUrl] changed, the cleanup of the
    effect of the render before runs. *)
Definition onDrop (acceptedFiles : list string)
    (page : option string * BatchAnalyze.ObjectUrls)
    : option string * BatchAnalyze.ObjectUrls :=
  let '(previewUrl, urls) := page in
  match acceptedFiles with
  | [] => page
  | file :: _ =>
      let '(url, urls) := BatchAnalyze.createObjectURL urls in
      (Some url,
       if bool_decide (Some url = previewUrl) then urls else cleanup previewUrl urls)
  end.

(** Unmounting runs the cleanup of the last effect. *)
Definition unmount (page : option string * BatchAnalyze.ObjectUrls)
    : BatchAnalyze.ObjectUrls :=
  cleanup page.1 page.2.

(** The page as it is mounted: [previewUrl] is [null]. *)
Definition mounted : option string * BatchAnalyze.ObjectUrls :=
  (None, BatchAnalyze.mkObjectUrls 0 ∅).

End Analyze.

(* ===================================================================== *)
(** * Part II: lemmas and theorems                                        *)
(* ===================================================================== *)

(** ** AuthContext.login *)

Lemma login_guard_iff email password :
  (bool_decide (email = "admin@food.com") && bool_decide (password = "admin123"))
  || (bool_decide (email = "user@food.com") && bool_decide (password = "user123")) = true
  ↔ demo_credentials email password.
Proof.
  unfold demo_credentials.
  rewrite orb_true_iff, !andb_true_iff, !bool_decide_eq_true. tauto.
Qed.

(** C10. [login] resolves to [true] exactly for the two demo pairs; it then
    stores the mock user registered under that e-mail address, and for any
    other pair it resolves to [false] and returns the state it was given. *)
Theorem login_resolves_true_iff_demo_pair email password st :
  (fst (AuthContext.login email password st) = true
     ↔ demo_credentials email password)
  ∧ (demo_credentials email password →
       ∃ u, AuthContext.prop_of AuthContext.mockUsers email = Some u
            ∧ AuthContext.email u = email
            ∧ AuthContext.user (snd (AuthContext.login email password st)) = Some u
            ∧ AuthContext.currentUser (snd (AuthContext.login email password st)) = Some u)
  ∧ (¬ demo_credentials email password →
       AuthContext.login email password st = (false, st)).
Proof.
  unfold AuthContext.login.
  destruct (_ || _) eqn:G.
  - apply login_guard_iff in G as D. split; [tauto|]. split; [|tauto].
    intros _. destruct D as [[-> ->]|[-> ->]]; eexists; repeat split; reflexivity.
  - assert (¬ demo_credentials email password) as N.
    { intros D. apply login_guard_iff in D. congruence. }
    split; [simpl; split; [discriminate|tauto]|]. split; [tauto|done].
Qed.

(** ** apiErrorHandler.createApiError *)

Section CreateApiError.
Import Js ApiErrorHandler.

Lemma fromProps_serverUrl msg p url d : serverUrl (fromProps msg p url d) = url.
Proof.
  unfold fromProps. case_bool_decide; [done|].
  destruct (response p); [done|]. by destruct (request p).
Qed.


End CreateApiError.




(** ** apiRequest, makeApiRequest and the health probes *)

Section Timeouts.
Import Js ApiErrorHandler Api.

Lemma rethrow_abort url : rethrowHandled abortError url = cancelled url.
Proof. reflexivity. Qed.

(** The promise of [apiRequest] settles no later than its timer, and a
    [fetch] that has not settled by then is aborted. *)
Lemma apiRequest_bounded url net (timeout : N) :
  (fst (apiRequest url net (Some timeout)) ≤ timeout)%N
  ∧ (¬ settles_before net timeout →
       apiRequest url net (Some timeout) = (timeout, Throw (cancelled url))).
Proof.
  unfold apiRequest, settles_before. change (default _ (Some timeout)) with timeout.
  destruct net as [t r|t msg|].
  - destruct (N.ltb_spec t timeout).
    + split; [|lia]. destruct (negb (ok r)); [|cbn [fst]; lia].
      destruct (createApiError _ _ _); cbn [fst]; lia.
    + split; [cbn [fst]; lia|]. by rewrite rethrow_abort.
  - destruct (N.ltb_spec t timeout).
    + split; [cbn [fst]; lia|lia].
    + split; [cbn [fst]; lia|]. by rewrite rethrow_abort.
  - split; [cbn [fst]; lia|]. by rewrite rethrow_abort.
Qed.

Lemma makeApiRequest_default base endpoint net :
  (fst (makeApiRequest base endpoint net None) ≤ 30000)%N
  ∧ (¬ settles_before net 30000 →
       makeApiRequest base endpoint net None
       = (30000%N, Throw (cancelled (base +:+ endpoint)))).
Proof.
  unfold makeApiRequest. change (default 30000%N None) with 30000%N.
  destruct (apiRequest_bounded (base +:+ endpoint) net 30000) as [Hle Habort].
  split.
  - destruct (apiRequest _ _ _) as [t [r|v]]; [exact Hle|].
    by destruct v.
  - intros Hn. by rewrite (Habort Hn).
Qed.

(** What a probe does in each situation of the network. *)
Lemma probe_cases server net :
  probe server net =
  match net with
  | Resolves t r =>
      if (t <? 5000)%N then
        if ok r then
          match body r with
          | Parses dt d => Some ((t + dt)%N, mkCheck (url server) true (Some d))
          | ReadFails dt _ => Some ((t + dt)%N, mkCheck (url server) false None)
          | ReadStalls => None
          end
        else Some (t, mkCheck (url server) false None)
      else Some (5000%N, mkCheck (url server) false None)
  | Rejects t _ =>
      if (t <? 5000)%N then Some (t, mkCheck (url server) false None)
      else Some (5000%N, mkCheck (url server) false None)
  | Pending => Some (5000%N, mkCheck (url server) false None)
  end.
Proof.
  unfold probe, apiRequest, response_json. change (default _ (Some 5000%N)) with 5000%N.
  destruct net as [t r|t msg|]; [| |done].
  - destruct (t <? 5000)%N; [|done]. destruct (ok r); cbn [negb].
    + by destruct (body r).
    + by destruct (createApiError _ _ _).
  - by destruct (t <? 5000)%N.
Qed.

Lemma probe_aborted server net :
  ¬ settles_before net 5000 →
  probe server net = Some (5000%N, mkCheck (url server) false None).
Proof.
  rewrite probe_cases. unfold settles_before.
  destruct net as [t r|t msg|]; [| |done]; intros Hn;
    by destruct (N.ltb_spec t 5000); [lia|].
Qed.

Lemma probe_stalls server net : probe server net = None ↔ body_stalls net 5000.
Proof.
  rewrite probe_cases. unfold body_stalls. split.
  - destruct net as [t r|t msg|]; [| |done].
    + destruct (N.ltb_spec t 5000); [|done]. destruct (ok r) eqn:Hok; [|done].
      destruct (body r) eqn:Hb; try done. intros _. by exists t, r.
    + by destruct (t <? 5000)%N.
  - intros (t & r & -> & Hlt & Hok & Hb).
    destruct (N.ltb_spec t 5000); [|lia]. by rewrite Hok, Hb.
Qed.

Lemma probe_settled server net t check :
  probe server net = Some (t, check) →
  check_url check = url server ∧ (t ≤ 5000 + body_time net)%N.
Proof.
  rewrite probe_cases. unfold body_time.
  destruct net as [t0 r|t0 msg|].
  - destruct (N.ltb_spec t0 5000).
    + destruct (ok r).
      * destruct (body r); [| |done]; intros [= <- <-]; (split; [done|lia]).
      * intros [= <- <-]. split; [done|]. destruct (body r); lia.
    + intros [= <- <-]. split; [done|]. destruct (body r); lia.
  - destruct (N.ltb_spec t0 5000); intros [= <- <-]; (split; [done|lia]).
  - intros [= <- <-]. split; [done|lia].
Qed.

(** The probes of a list of servers, side by side. *)
Lemma probes_settled (nets : Server → FetchOutcome) (servers : list Server) :
  (mapM (λ server, probe server (nets server)) servers = None
     ↔ ∃ server, server ∈ servers ∧ probe server (nets server) = None)
  ∧ (∀ results, mapM (λ server, probe server (nets server)) servers = Some results →
       Forall2 (λ server result, probe server (nets server) = Some result)
         servers results).
Proof.
  split.
  - rewrite eq_None_not_Some, mapM_is_Some, <- Exists_Forall_neg
      by (intros server; cbn; destruct (probe server (nets server)); [left|right];
          [by eexists|by intros [? ?]]).
    rewrite Exists_exists. split.
    + intros (server & Hin & Hno). exists server. split; [done|].
      cbn in Hno. by apply eq_None_not_Some.
    + intros (server & Hin & Hno). exists server. split; [done|].
      cbn. rewrite Hno. by intros [? ?].
  - intros results. by rewrite mapM_Some.
Qed.

Lemma probes_bounded (nets : Server → FetchOutcome) servers results :
  Forall2 (λ server result, probe server (nets server) = Some result) servers results →
  map check_url (map snd results) = map url servers
  ∧ ∀ longest, (∀ server, server ∈ servers → (body_time (nets server) ≤ longest)%N) →
               (foldr N.max 0 (map fst results) ≤ 5000 + longest)%N.
Proof.
  induction 1 as [|server [t c] servers results Hp _ [IHu IHt]]; [split; [done|cbn; lia]|].
  apply probe_settled in Hp as [Hu Ht]. split.
  - cbn [map snd]. by rewrite Hu, IHu.
  - intros longest Hlong. cbn [map fst foldr].
    assert (body_time (nets server) ≤ longest)%N by (apply Hlong; by left).
    assert (foldr N.max 0 (map fst results) ≤ 5000 + longest)%N
      by (apply IHt; intros; apply Hlong; by right).
    lia.
Qed.

Lemma checkAllBackendServers_cases (nets : Server → FetchOutcome) :
  (checkAllBackendServers nets = None
     ↔ ∃ server, server ∈ BACKEND_SERVERS ∧ body_stalls (nets server) 5000)
  ∧ (∀ t checks, checkAllBackendServers nets = Some (t, checks) →
       ∃ results,
         Forall2 (λ server result, probe server (nets server) = Some result)
           BACKEND_SERVERS results
         ∧ checks = map snd results ∧ t = foldr N.max 0%N (map fst results)).
Proof.
  unfold checkAllBackendServers.
  destruct (probes_settled nets BACKEND_SERVERS) as [Hnone Hsome].
  destruct (mapM _ BACKEND_SERVERS) as [results|] eqn:E; cbn.
  - split.
    + split; [done|]. intros (server & Hin & Hst).
      assert (Some results = None) as Habs; [|done].
      apply (proj2 Hnone). exists server. split; [done|].
      exact (proj2 (probe_stalls server _) Hst).
    + intros t checks [= <- <-]. exists results. split; [by apply Hsome|done].
  - split; [|done]. split; [|done]. intros _.
    destruct (proj1 Hnone eq_refl) as (server & Hin & Hp).
    exists server. split; [done|]. exact (proj1 (probe_stalls server _) Hp).
Qed.

End Timeouts.

(** C8, the networks on which the claim fails: a back end that sends an
    [ok] status line after 10 ms and its body after a further minute
    holds its probe for 60010 ms, well beyond the 5000 ms of the timer;
    and when the body never comes to its end the probe, and with it the
    whole check, never settles and nothing is aborted. *)
Lemma probe_outlasts_its_timeout :
  let server := Api.mkServer "http://backend-1:8000" "Backend Server 1" in
  let health := Js.JObj [("status", Js.JStr "healthy")] in
  let slow := ApiErrorHandler.Resolves 10
                (ApiErrorHandler.mkResponse 200 "OK" (ApiErrorHandler.Parses 60000 health)) in
  let stalled := ApiErrorHandler.Resolves 10
                   (ApiErrorHandler.mkResponse 200 "OK" ApiErrorHandler.ReadStalls) in
  settles_before slow 5000 ∧ settles_before stalled 5000
  ∧ Api.probe server slow
    = Some (60010%N, Api.mkCheck "http://backend-1:8000" true (Some health))
  ∧ Api.probe server stalled = None
  ∧ Api.checkAllBackendServers (λ _, stalled) = None.
Proof.
  cbv zeta. split; [cbn; lia|]. split; [cbn; lia|].
  split; [vm_compute; reflexivity|]. split; vm_compute; reflexivity.
Qed.

(** C8, amended. A request made through [makeApiRequest] without a
    timeout argument settles within 30000 ms, and is aborted ("Request
    was cancelled") at 30000 ms when the network has not answered
    before. Every probe of [checkAllBackendServers] makes its request
    with a timer of 5000 ms and reports its server unhealthy at 5000 ms
    when the network has not answered before. The timer covers the wait
    for the response and not the reading of its body: a probe that
    settles does so within 5000 ms plus the time its body takes, it
    never settles exactly when an [ok] response arrived in time and its
    body never ends, and the whole check settles exactly when every
    probe does, then no later than the slowest of them. *)
Theorem request_waits_for_the_response_at_most_its_timeout
    (base endpoint : string) (net : ApiErrorHandler.FetchOutcome)
    (nets : Api.Server → ApiErrorHandler.FetchOutcome) :
  ((fst (Api.makeApiRequest base endpoint net None) ≤ 30000)%N
   ∧ (¬ settles_before net 30000 →
        Api.makeApiRequest base endpoint net None
        = (30000%N, ApiErrorHandler.Throw (cancelled (base +:+ endpoint)))))
  ∧ (∀ server,
       (¬ settles_before (nets server) 5000 →
          Api.probe server (nets server)
          = Some (5000%N, Api.mkCheck (Api.url server) false None))
       ∧ (∀ t check, Api.probe server (nets server) = Some (t, check) →
            (t ≤ 5000 + body_time (nets server))%N)
       ∧ (Api.probe server (nets server) = None ↔ body_stalls (nets server) 5000))
  ∧ (Api.checkAllBackendServers nets = None
       ↔ ∃ server, server ∈ Api.BACKEND_SERVERS ∧ body_stalls (nets server) 5000)
  ∧ (∀ t checks, Api.checkAllBackendServers nets = Some (t, checks) →
       map Api.check_url checks = map Api.url Api.BACKEND_SERVERS
       ∧ ∀ longest, (∀ server, server ∈ Api.BACKEND_SERVERS →
                       (body_time (nets server) ≤ longest)%N) →
                    (t ≤ 5000 + longest)%N).
Proof.
  split; [apply makeApiRequest_default|].
  split.
  { intros server. split; [apply probe_aborted|]. split; [|apply probe_stalls].
    intros t check Hp. by apply probe_settled in Hp as [_ ?]. }
  destruct (checkAllBackendServers_cases nets) as [Hnone Hsome].
  split; [exact Hnone|]. intros t checks Hall.
  destruct (Hsome t checks Hall) as (results & Hprobes & -> & ->).
  exact (probes_bounded nets _ _ Hprobes).
Qed.

(** ** BatchAnalyze: the status polling loop *)

Section Polling.
Import BatchAnalyze.

Lemma in_progress_not_terminal r : in_progress r = true → terminal_reply r = false.
Proof.
  destruct r as [|[s|]]; cbn; try done.
  rewrite orb_true_iff, !bool_decide_eq_true.
  intros [E|E]; rewrite E; reflexivity.
Qed.

(** [setTimeout(poll, 1000)] is reached only from a queued or processing
    reply, below the cap, and leaves the error and the upload flag alone. *)
Lemma poll_again reply pollCount st st' ms pollCount' :
  poll reply pollCount st = (st', Some (ms, pollCount')) →
  in_progress reply = true ∧ pollCount < maxPolls ∧ ms = 1000%N
  ∧ pollCount' = S pollCount
  ∧ error_ st' = error_ st ∧ isUploading st' = isUploading st.
Proof.
  unfold poll. destruct reply as [|[s|]]; try done.
  destruct (_ || _) eqn:T; [done|].
  destruct (bool_decide (pollCount < maxPolls)) eqn:C; cbn [andb]; [|done].
  destruct (bool_decide (status s = "queued") || bool_decide (status s = "processing")) eqn:P;
    [|done].
  intros [= <- <- <-]. apply bool_decide_eq_true in C. cbn. by rewrite P.
Qed.

Lemma poll_stop_in_progress reply pollCount st st' :
  poll reply pollCount st = (st', None) →
  in_progress reply = true →
  maxPolls ≤ pollCount ∧ isUploading st' = false
  ∧ error_ st' = Some "Batch processing timed out".
Proof.
  unfold poll. destruct reply as [|[s|]]; try done. intros E P.
  pose proof (in_progress_not_terminal _ P) as T. cbn in T, P.
  rewrite T, P, andb_true_r in E.
  clear T P. destruct (bool_decide_reflect (pollCount < maxPolls)) as [|Hge]; [done|].
  injection E as <-. split; [lia|done].
Qed.

Lemma poll_stop_terminal reply pollCount st st' :
  poll reply pollCount st = (st', None) →
  terminal_reply reply = true →
  isUploading st' = false ∧ error_ st' = error_ st
  ∧ PollJson (batchStatus st') = reply.
Proof.
  unfold poll. destruct reply as [|[s|]]; try done. intros E T.
  cbn in T. rewrite T in E. by injection E as <-.
Qed.

Lemma trace_step endpoint r ms events :
  replies (Fetch endpoint r :: SetTimeout ms :: events) = r :: replies events
  ∧ timers (Fetch endpoint r :: SetTimeout ms :: events) = ms :: timers events.
Proof. done. Qed.

Lemma pollLoop_run endpoint server fuel : ∀ n pollCount st,
  pollCount ≤ maxPolls → maxPolls - pollCount < fuel →
  ∃ st' events, pollLoop fuel endpoint server n pollCount st = Some (st', events)
                ∧ poll_run server n pollCount st st' events.
Proof.
  induction fuel as [|fuel IH]; intros n pollCount st Hle Hfuel; [lia|].
  cbn [pollLoop]. destruct (poll (server n) pollCount st) as [st1 [[ms pollCount']|]] eqn:E.
  - apply poll_again in E as (P & Hlt & -> & -> & Herr & Hup).
    destruct (IH (S n) (S pollCount) st1) as (st' & events & -> & Hrun); [lia|lia|].
    exists st', (Fetch endpoint (server n) :: SetTimeout 1000 :: events).
    split; [done|].
    destruct Hrun as (Hrep & Htim & Hm & Hcap & Hmid & Hlast & Hterm).
    unfold poll_run, requests in *.
    destruct (trace_step endpoint (server n) 1000%N events) as [-> ->]. cbn [length].
    set (m := length (replies events)) in *.
    replace (n + (S m - 1)) with (S n + (m - 1)) by lia.
    split; [by rewrite Hrep|].
    split. { rewrite Htim. by destruct m; [lia|]; cbn; rewrite Nat.sub_0_r. }
    split; [lia|]. split; [lia|]. split.
    { intros [|i] Hi; [by rewrite Nat.add_0_r|].
      replace (n + S i) with (S n + i) by lia. apply Hmid. lia. }
    split.
    + intros Hp. destruct (Hlast Hp) as (? & ? & ?). split; [lia|done].
    + intros Ht. destruct (Hterm Ht) as (? & ? & ?). split; [done|]. split; [congruence|done].
  - exists st1, [Fetch endpoint (server n)]. split; [done|].
    unfold poll_run, requests.
    change (replies [Fetch endpoint (server n)]) with [server n].
    change (timers [Fetch endpoint (server n)]) with (@nil N). cbn [length].
    rewrite Nat.add_0_r. cbn [seq map Nat.sub replicate].
    split; [done|]. split; [done|]. split; [lia|]. split; [lia|].
    split; [intros i Hi; lia|]. split.
    + intros P. destruct (poll_stop_in_progress _ _ _ _ E P) as (? & ? & ?).
      split; [lia|done].
    + intros T. exact (poll_stop_terminal _ _ _ _ E T).
Qed.

Lemma pollBatchStatus_run batchId server st :
  ∃ st' events, pollBatchStatus batchId server st = Some (st', events)
                ∧ poll_run server 0 0 st st' events.
Proof. unfold pollBatchStatus. apply pollLoop_run; lia. Qed.

End Polling.

(** C3, the run on which the claim fails: against a back end that keeps
    answering [processing], the page makes 301 status requests (the first
    one and 300 re-polls), one more than the claimed cap of 300. *)
Lemma pollBatchStatus_makes_301_requests :
  ∃ st' events,
    BatchAnalyze.pollBatchStatus (Some "b1")
      (λ _, BatchAnalyze.PollJson (Some (processing_status "b1" 3 1)))
      (fresh_page []) = Some (st', events)
    ∧ requests events = 301
    ∧ ¬ requests events ≤ 300.
Proof.
  eexists _, _. split; [vm_compute; reflexivity|].
  split; [vm_compute; reflexivity|]. vm_compute. lia.
Qed.

(** C3, amended. For every batch id and every back end the polling chain
    ends; each timer it sets has a delay of 1000 ms; it sets at most 300
    timers, one after each request but the last, so it makes at most 301
    requests; and when the first 301 replies are all [queued] or
    [processing] it makes exactly 301 requests, then clears the upload
    flag and sets the error "Batch processing timed out". *)
Theorem pollBatchStatus_sets_at_most_300_timers
    (batchId : option string) (server : nat → BatchAnalyze.PollReply)
    (st : BatchAnalyze.State) :
  ∃ st' events,
    BatchAnalyze.pollBatchStatus batchId server st = Some (st', events)
    ∧ timers events = replicate (requests events - 1) 1000%N
    ∧ length (timers events) ≤ 300
    ∧ 1 ≤ requests events ≤ 301
    ∧ ((∀ n, n ≤ 300 → in_progress (server n) = true) →
         requests events = 301
         ∧ BatchAnalyze.isUploading st' = false
         ∧ BatchAnalyze.error_ st' = Some "Batch processing timed out").
Proof.
  destruct (pollBatchStatus_run batchId server st)
    as (st' & events & Hrun & Hrep & Htim & Hm & Hcap & Hmid & Hlast & Hterm).
  exists st', events. split; [exact Hrun|]. split; [exact Htim|].
  change (S BatchAnalyze.maxPolls) with 301 in *.
  split; [rewrite Htim, length_replicate; lia|]. split; [lia|].
  intros Hall. destruct Hlast as (? & ? & ?); [apply Hall; lia|].
  split; [lia|done].
Qed.

(** C4. For every batch id and every back end: the replies seen are the
    back end's answers to the requests in order; every request that is
    followed by another one was answered [queued] or [processing]; a
    [completed] or [failed] reply is the last one of the chain, with the
    upload flag cleared, the error untouched and the reply stored; and a
    first terminal reply among the first 301 is reached and ends the
    chain there. *)
Theorem pollBatchStatus_stops_at_terminal_status
    (batchId : option string) (server : nat → BatchAnalyze.PollReply)
    (st : BatchAnalyze.State) :
  ∃ st' events,
    BatchAnalyze.pollBatchStatus batchId server st = Some (st', events)
    ∧ replies events = map server (seq 0 (requests events))
    ∧ length (timers events) = requests events - 1
    ∧ (∀ i, S i < requests events → in_progress (server i) = true)
    ∧ (∀ k, k < requests events → terminal_reply (server k) = true →
         requests events = S k
         ∧ BatchAnalyze.isUploading st' = false
         ∧ BatchAnalyze.error_ st' = BatchAnalyze.error_ st
         ∧ BatchAnalyze.PollJson (BatchAnalyze.batchStatus st') = server k)
    ∧ (∀ k, k ≤ 300 → terminal_reply (server k) = true →
         (∀ i, i < k → in_progress (server i) = true) →
         requests events = S k).
Proof.
  destruct (pollBatchStatus_run batchId server st)
    as (st' & events & Hrun & Hrep & Htim & Hm & Hcap & Hmid & Hlast & Hterm).
  exists st', events. split; [exact Hrun|]. split; [exact Hrep|].
  cbn [Nat.add] in *. change (S BatchAnalyze.maxPolls) with 301 in *.
  set (m := requests events) in *.
  split; [rewrite Htim, length_replicate; done|].
  split; [exact Hmid|].
  assert (∀ k, k < m → terminal_reply (server k) = true → m = S k) as Hstop.
  { intros k Hk Ht. destruct (decide (S k < m)) as [Hlt|]; [|lia].
    apply Hmid, in_progress_not_terminal in Hlt. congruence. }
  split.
  - intros k Hk Ht. pose proof (Hstop k Hk Ht) as Hmk. split; [exact Hmk|].
    replace (m - 1) with k in Hterm by lia. by apply Hterm.
  - intros k Hk Ht Hbefore. destruct (decide (k < m)) as [|Hge]; [by apply Hstop|].
    destruct Hlast as (? & _); [apply Hbefore; lia|lia].
Qed.

(** ** BatchAnalyze.uploadBatch *)

(** What the page does with a reply that carries the id [id]. *)
Lemma uploadBatch_queued (st : BatchAnalyze.State) (id : option string) :
  BatchAnalyze.files st ≠ [] →
  BatchAnalyze.uploadBatch (BatchAnalyze.UploadJson (Some id)) st
  = (BatchAnalyze.mkState (BatchAnalyze.files st) true
       (Some (BatchAnalyze.mkBatchStatus id "queued" 0
                (Z.of_nat (length (BatchAnalyze.files st))) 0 None None))
       None,
     Some id).
Proof.
  intros Hfiles. unfold BatchAnalyze.uploadBatch.
  case_bool_decide as Hlen; [|done].
  by destruct (BatchAnalyze.files st).
Qed.

(** The back end accepts a submission under an id that no batch had. *)
Lemma submit_fresh (total : nat) (store : gmap string BatchStore.Batch) :
  store !! (BatchStore.submit total store).1 = None.
Proof.
  unfold BatchStore.submit. cbn [fst]. apply not_elem_of_dom, is_fresh.
Qed.

(** C6. For every store of batches and every selection of N >= 1 files:
    the back end accepts the submission of the N items under an id that
    no batch had before, leaves the other batches alone, and holds the
    new batch with status [queued], total N, completed count 0 and no
    result, which is also what its status endpoint answers at that
    moment; and the page, on the reply that carries this id, sets its
    batch at once to exactly that answer (id, [queued], total N,
    completed 0, no results, no error), keeps the submission marked as
    running, shows no error and starts polling for that id. *)
Theorem accepted_submission_is_queued_under_its_id
    (store : gmap string BatchStore.Batch) (st : BatchAnalyze.State)
    (names : nat → string) :
  BatchAnalyze.files st ≠ [] →
  let N := length (BatchAnalyze.files st) in
  let batchId := (BatchStore.submit N store).1 in
  let store' := (BatchStore.submit N store).2 in
  store !! batchId = None
  ∧ (∀ other, other ≠ batchId → store' !! other = store !! other)
  ∧ store' !! batchId = Some (BatchStore.mkBatch BatchStore.queued N 0 ∅ None)
  ∧ BatchStore.getStatus store' batchId
    = inr (BatchStore.mkStatusResponse BatchStore.queued N 0 None None)
  ∧ BatchAnalyze.uploadBatch (accepted_reply batchId) st
    = (BatchAnalyze.mkState (BatchAnalyze.files st) true
         (Some (status_on_wire batchId names 0
                  (BatchStore.mkStatusResponse BatchStore.queued N 0 None None)))
         None,
       Some (Some batchId)).
Proof.
  intros Hfiles. cbv zeta. split; [apply submit_fresh|].
  unfold BatchStore.submit, BatchStore.getStatus. cbn [fst snd].
  split; [intros other Hne; by rewrite lookup_insert_ne|].
  rewrite lookup_insert_eq. split; [done|]. split; [done|].
  unfold accepted_reply. by rewrite uploadBatch_queued.
Qed.

Lemma accepted_submission_is_queued_under_its_id_witness :
  let st := fresh_page [BatchAnalyze.mkBatchFile "a.jpg" "blob:a" "waiting";
                        BatchAnalyze.mkBatchFile "b.jpg" "blob:b" "waiting"] in
  let store : gmap string BatchStore.Batch := ∅ in
  let names := λ _ : nat, "a.jpg" in
  let batchId := (BatchStore.submit 2 store).1 in
  let store' := (BatchStore.submit 2 store).2 in
  store !! batchId = None
  ∧ (∀ other, other ≠ batchId → store' !! other = store !! other)
  ∧ store' !! batchId = Some (BatchStore.mkBatch BatchStore.queued 2 0 ∅ None)
  ∧ BatchStore.getStatus store' batchId
    = inr (BatchStore.mkStatusResponse BatchStore.queued 2 0 None None)
  ∧ BatchAnalyze.uploadBatch (accepted_reply batchId) st
    = (BatchAnalyze.mkState (BatchAnalyze.files st) true
         (Some (status_on_wire batchId names 0
                  (BatchStore.mkStatusResponse BatchStore.queued 2 0 None None)))
         None,
       Some (Some batchId)).
Proof.
  apply (accepted_submission_is_queued_under_its_id ∅
           (fresh_page [BatchAnalyze.mkBatchFile "a.jpg" "blob:a" "waiting";
                        BatchAnalyze.mkBatchFile "b.jpg" "blob:b" "waiting"])
           (λ _ : nat, "a.jpg")).
  discriminate.
Defined.

(** ** ServerError.getServerStatusDisplay and the start script: the fields read *)

Section FieldsRead.
Import Js ServerError StartFullSystem.

Lemma assoc_opt_filter (keys : list string) fields k :
  k ∈ keys → assoc_opt (filter (λ kv : string * json, kv.1 ∈ keys) fields) k = assoc_opt fields k.
Proof.
  intros Hk. induction fields as [|[k' v] fields IH]; [done|].
  rewrite filter_cons. cbn [assoc_opt fst]. case_decide as Hin.
  - cbn [assoc_opt]. by rewrite IH.
  - rewrite IH. case_bool_decide; [by subst|done].
Qed.

Lemma assoc_opt_on k' f fields k :
  assoc_opt (map (λ kv : string * json,
                    if bool_decide (kv.1 = k') then (kv.1, f kv.2) else kv) fields) k
  = if bool_decide (k = k') then f <$> assoc_opt fields k else assoc_opt fields k.
Proof.
  induction fields as [|[k1 v] fields IH]; [by case_bool_decide|].
  cbn [map fst snd]. destruct (bool_decide_reflect (k1 = k')) as [->|Hne1];
    cbn [assoc_opt]; rewrite IH.
  - destruct (bool_decide_reflect (k' = k)) as [->|Hne].
    + by rewrite bool_decide_eq_true_2.
    + by rewrite (bool_decide_eq_false_2 (k = k')).
  - destruct (bool_decide_reflect (k1 = k)) as [->|Hne]; [|done].
    by rewrite bool_decide_eq_false_2.
Qed.

Lemma subscript_keep (keys : list string) k d : k ∈ keys → subscript k (keep keys d) = subscript k d.
Proof. intros Hk. destruct d; try done. by apply assoc_opt_filter. Qed.

Lemma subscript_on_ne k k' f d : k ≠ k' → subscript k (on k' f d) = subscript k d.
Proof.
  intros Hne. destruct d; try done. cbn. rewrite assoc_opt_on.
  by rewrite bool_decide_eq_false_2.
Qed.

Lemma subscript_on_eq k f d : subscript k (on k f d) = f <$> subscript k d.
Proof.
  destruct d; try done. cbn. rewrite assoc_opt_on.
  by rewrite bool_decide_eq_true_2.
Qed.

Lemma get_subscript k d : get k d = default JUndefined (subscript k d).
Proof. by destruct d. Qed.

Lemma get_keep (keys : list string) k d : k ∈ keys → get k (keep keys d) = get k d.
Proof. intros Hk. by rewrite !get_subscript, subscript_keep. Qed.

Lemma get_on_ne k k' f d : k ≠ k' → get k (on k' f d) = get k d.
Proof. intros Hne. by rewrite !get_subscript, subscript_on_ne. Qed.

Lemma get_on_eq k f d : f JUndefined = JUndefined → get k (on k f d) = f (get k d).
Proof.
  intros Hf. rewrite !get_subscript, subscript_on_eq.
  by destruct (subscript k d).
Qed.

Lemma truthy_keep (keys : list string) d : truthy (keep keys d) = truthy d.
Proof. by destruct d. Qed.

Lemma truthy_on k f d : truthy (on k f d) = truthy d.
Proof. by destruct d. Qed.

Lemma renderServer_keep server :
  renderServer (keep server_fields server) = renderServer server.
Proof.
  unfold renderServer.
  assert (nullish (keep server_fields server) = nullish server) as -> by by destruct server.
  destruct (nullish server); [done|].
  rewrite !get_keep; [done|unfold server_fields; set_solver..].
Qed.

Lemma renderServers_keep servers :
  renderServers (map (keep server_fields) servers) = renderServers servers.
Proof.
  induction servers as [|server servers IH]; [done|].
  cbn [map renderServers]. by rewrite renderServer_keep, IH.
Qed.

Lemma getServerStatusDisplay_health_only d :
  getServerStatusDisplay (health_only d) = getServerStatusDisplay d.
Proof.
  unfold getServerStatusDisplay, health_only.
  rewrite truthy_on, truthy_keep. destruct (truthy d); [|done]. cbn [negb].
  rewrite !(get_on_ne "status"), !(get_on_ne "healthy_servers"),
    !(get_on_ne "total_servers"), !(get_on_ne "total_requests") by done.
  rewrite get_on_eq by done.
  rewrite !get_keep by (unfold health_fields; set_solver).
  destruct (get "servers" d) as [| | | | |servers|]; try done.
  cbn [each]. by rewrite renderServers_keep.
Qed.

Lemma quickHealthCheck_stats_only reply :
  quickHealthCheck (stats_only <$> reply) = quickHealthCheck reply.
Proof.
  destruct reply as [d|]; [|done]. cbn [fmap option_fmap option_map quickHealthCheck].
  assert (subscript "servers" (stats_only d)
          = keep ["total"; "healthy"] <$> subscript "servers" d) as Hs.
  { unfold stats_only. rewrite subscript_on_eq, subscript_on_ne by done.
    rewrite subscript_keep by set_solver. done. }
  assert (subscript "load_balancer" (stats_only d)
          = keep ["algorithm"] <$> subscript "load_balancer" d) as Hl.
  { unfold stats_only. rewrite subscript_on_ne by done.
    rewrite subscript_on_eq, subscript_keep by set_solver. done. }
  assert (subscript "next_server" (stats_only d) = subscript "next_server" d) as Hn.
  { unfold stats_only. rewrite !subscript_on_ne by done.
    rewrite subscript_keep by set_solver. done. }
  rewrite Hs, Hl, Hn.
  assert (∀ o (keys : list string) k, k ∈ keys →
            (keep keys <$> o) ≫= subscript k = o ≫= subscript k) as Hbind.
  { intros [v|] keys k Hk; [|done]. cbn. by apply subscript_keep. }
  rewrite !Hbind by set_solver. done.
Qed.

End FieldsRead.

(** C5, the replies on which the claim fails: of a [/health] reply with
    the fields [status, healthyCount, totalCount, perWorker] the status
    card uses [status] alone, while it does show [total_requests], which
    is not among them; and of a [/stats] reply with the fields
    [algorithm, nextWorker, perWorkerServedCount] the start script prints
    nothing but its fallback line. *)
Lemma described_fields_are_not_the_ones_read :
  ServerError.getServerStatusDisplay health_as_described
  = ServerError.getServerStatusDisplay (Js.JObj [("status", Js.JStr "healthy")])
  ∧ ServerError.getServerStatusDisplay
      (put "total_requests" (Js.JNum 7) health_as_described)
    ≠ ServerError.getServerStatusDisplay health_as_described
  ∧ StartFullSystem.quickHealthCheck (Some stats_as_described)
    = [StartFullSystem.StillStarting].
Proof.
  split; [vm_compute; reflexivity|]. split; [vm_compute; discriminate|].
  vm_compute; reflexivity.
Qed.

(** C5, amended. The status card built from a [/health] reply is the same
    when every property other than [status], [healthy_servers],
    [total_servers], [total_requests] and [servers] (and, in each entry
    of [servers], other than [healthy], [url] and [current_load]) is
    erased, and each of these properties does change the card; the lines
    printed from a [/stats] reply are the same when every property other
    than [servers.total], [servers.healthy], [load_balancer.algorithm]
    and [next_server] is erased, and each of these does change them. *)
Theorem consumers_read_exactly_the_served_fields :
  (∀ d, ServerError.getServerStatusDisplay (health_only d)
        = ServerError.getServerStatusDisplay d)
  ∧ Forall (λ k, ∃ v, ServerError.getServerStatusDisplay (put k v health_of_guide)
                      ≠ ServerError.getServerStatusDisplay health_of_guide)
      health_fields
  ∧ Forall (λ k, ∃ v, ServerError.getServerStatusDisplay (one_server [(k, v)])
                      ≠ ServerError.getServerStatusDisplay (one_server []))
      server_fields
  ∧ (∀ reply, StartFullSystem.quickHealthCheck (stats_only <$> reply)
              = StartFullSystem.quickHealthCheck reply)
  ∧ Forall (λ path, ∃ v, StartFullSystem.quickHealthCheck
                           (Some (put_at path v stats_of_guide))
                         ≠ StartFullSystem.quickHealthCheck (Some stats_of_guide))
      stats_paths.
Proof.
  split; [exact getServerStatusDisplay_health_only|].
  split.
  { unfold health_fields. repeat apply Forall_cons_2; try apply Forall_nil_2; cbv beta.
    - exists (Js.JStr "down"). vm_compute. discriminate.
    - exists (Js.JNum 1). vm_compute. discriminate.
    - exists (Js.JNum 5). vm_compute. discriminate.
    - exists (Js.JNum 7). vm_compute. discriminate.
    - exists Js.JNull. vm_compute. discriminate. }
  split.
  { unfold server_fields. repeat apply Forall_cons_2; try apply Forall_nil_2; cbv beta.
    - exists (Js.JBool true). vm_compute. discriminate.
    - exists (Js.JStr "http://localhost:8000"). vm_compute. discriminate.
    - exists (Js.JNum 2). vm_compute. discriminate. }
  split; [exact quickHealthCheck_stats_only|].
  unfold stats_paths. repeat apply Forall_cons_2; try apply Forall_nil_2; cbv beta.
  - exists (Js.JNum 4). vm_compute. discriminate.
  - exists (Js.JNum 1). vm_compute. discriminate.
  - exists (Js.JStr "least-connections"). vm_compute. discriminate.
  - exists (Js.JStr "Backend Server 2"). vm_compute. discriminate.
Qed.

(** ** The batch store: counter and status *)

Section Batches.
Import BatchStore.

Lemma run_snoc events e b : run (events ++ [e]) b = step (run events b) e.
Proof. unfold run. by rewrite foldl_app. Qed.

Lemma transitionStatus_fields new b :
  total (transitionStatus new b) = total b
  ∧ completedCount (transitionStatus new b) = completedCount b
  ∧ results (transitionStatus new b) = results b
  ∧ fault (transitionStatus new b) = fault b
  ∧ forward (status b) (status (transitionStatus new b)).
Proof.
  unfold transitionStatus, forward. destruct (permitted (status b) new) eqn:E; cbn; auto 10.
Qed.

Lemma transitionStatus_terminal new b :
  terminal (status b) = true → transitionStatus new b = b.
Proof. unfold transitionStatus. by destruct (status b), new. Qed.

(** A bounded key set bounds the number of results. *)
Lemma results_size_le T (m : gmap nat ItemResult) :
  (∀ item, is_Some (m !! item) → item < T) → size m ≤ T.
Proof.
  intros Hdom. rewrite <- size_dom, <- (size_set_seq (C:=gset nat) 0 T).
  apply subseteq_size. intros item Hin.
  apply elem_of_dom, Hdom in Hin. apply elem_of_set_seq. lia.
Qed.

Lemma transitionStatus_inv T new b : batch_inv T b → batch_inv T (transitionStatus new b).
Proof.
  unfold batch_inv.
  by destruct (transitionStatus_fields new b) as (-> & -> & -> & _).
Qed.

Lemma step_inv T b e : of_batch T e → batch_inv T b → batch_inv T (step b e).
Proof.
  intros He (Ht & Hc & Hd). destruct e as [|item r|message]; cbn [step].
  - by apply transitionStatus_inv.
  - unfold itemDone. destruct (terminal (status b)); [done|].
    destruct (results b !! item) as [old|] eqn:Hitem.
    + split; [done|]. split; cbn.
      * rewrite map_size_insert_Some; [done|by eexists].
      * intros i [x Hx]. destruct (decide (item = i)) as [->|Hne]; [by apply Hd|].
        rewrite lookup_insert_ne in Hx by done. apply Hd. by eexists.
    + assert (batch_inv T (incrementCompleted (upsertResult item r b))) as Hinv.
      { split; [done|]. split; cbn.
        - rewrite map_size_insert_None by done. by rewrite Hc.
        - intros i [x Hx]. destruct (decide (item = i)) as [<-|Hne]; [exact He|].
          rewrite lookup_insert_ne in Hx by done. apply Hd. by eexists. }
      case_bool_decide; [|exact Hinv]. by apply transitionStatus_inv.
  - unfold submissionFault. by destruct (permitted (status b) failed).
Qed.

Lemma run_inv T events :
  Forall (of_batch T) events → batch_inv T (run events (createBatch T)).
Proof.
  induction events as [|e events IH] using rev_ind; intros Hall.
  - split; [done|]. split; [done|]. intros item [x Hx]. cbn in Hx.
    by rewrite lookup_empty in Hx.
  - apply Forall_app in Hall as [Hev He]. rewrite run_snoc.
    apply step_inv; [|by apply IH].
    by inversion He.
Qed.

Lemma batch_inv_bound T b : batch_inv T b → completedCount b ≤ T.
Proof. intros (_ & -> & Hd). by apply results_size_le. Qed.

(** The counter moves by one exactly on an item's completion. *)
Lemma step_counter b e :
  (completes_item b e → completedCount (step b e) = S (completedCount b))
  ∧ (¬ completes_item b e → completedCount (step b e) = completedCount b).
Proof.
  destruct e as [|item r|message]; cbn [step completes_item].
  - split; [done|]. intros _. unfold taskDequeued.
    by destruct (transitionStatus_fields processing b) as (_ & -> & _).
  - unfold itemDone. destruct (terminal (status b)) eqn:Hterm.
    { split; [by intros [? _]|done]. }
    destruct (results b !! item) as [old|] eqn:Hitem.
    { split; [by intros [_ ?]|done]. }
    split; [|intros []; done]. intros _.
    case_bool_decide; [|done].
    by destruct (transitionStatus_fields completed (incrementCompleted (upsertResult item r b)))
      as (_ & -> & _).
  - split; [done|]. intros _. unfold submissionFault.
    by destruct (permitted (status b) failed).
Qed.

(** Every step keeps the status or follows an edge of the state machine,
    and a terminal batch is not changed at all. *)
Lemma step_status b e :
  forward (status b) (status (step b e))
  ∧ (terminal (status b) = true → step b e = b).
Proof.
  destruct e as [|item r|message]; cbn [step].
  - unfold taskDequeued. split; [apply transitionStatus_fields|apply transitionStatus_terminal].
  - unfold itemDone. destruct (terminal (status b)) eqn:Hterm; [by split; [left|]|].
    split; [|done]. destruct (results b !! item); [by left|].
    case_bool_decide; [|by left].
    apply (transitionStatus_fields completed (incrementCompleted (upsertResult item r b))).
  - unfold submissionFault, forward.
    destruct (permitted (status b) failed) eqn:E; cbn.
    + split; [by right|]. by destruct (status b).
    + split; [by left|done].
Qed.

Lemma step_fault_inv b e : fault_inv b → fault_inv (step b e).
Proof.
  unfold fault_inv. intros Hf. destruct e as [|item r|message]; cbn [step].
  - unfold taskDequeued, transitionStatus.
    destruct (permitted (status b) processing) eqn:E; [|done]. cbn.
    intros Hs. rewrite (Hf Hs) in E. done.
  - unfold itemDone. destruct (terminal (status b)) eqn:Hterm; [done|].
    intros Hs.
    assert (is_Some (fault b)) as Hb.
    { destruct (results b !! item); [done|]. case_bool_decide; [|done].
      destruct (transitionStatus_fields completed (incrementCompleted (upsertResult item r b)))
        as (_ & _ & _ & E & _).
      by rewrite E in Hs. }
    rewrite (Hf Hb) in Hterm. done.
  - unfold submissionFault. by destruct (permitted (status b) failed).
Qed.

Lemma run_fault_inv T events : fault_inv (run events (createBatch T)).
Proof.
  induction events as [|e events IH] using rev_ind.
  - by intros [x Hx].
  - rewrite run_snoc. by apply step_fault_inv.
Qed.

End Batches.

(** A batch of three items whose second item fails and whose third task
    is delivered twice ends [completed] with the counter at 3. *)
Example batch_of_three_completes :
  let b := BatchStore.run
             [BatchStore.Dequeued;
              BatchStore.ItemDone 0 (BatchStore.error "a");
              BatchStore.ItemDone 1 (BatchStore.error "unreadable image");
              BatchStore.ItemDone 2 (BatchStore.error "c");
              BatchStore.ItemDone 2 (BatchStore.error "c")]
             (BatchStore.createBatch 3) in
  BatchStore.status b = BatchStore.completed ∧ BatchStore.completedCount b = 3.
Proof. vm_compute. done. Qed.

(** C1. In every run of a batch created with [T] items, whose tasks all
    belong to the batch, the counter never exceeds [T]; a step that
    completes an item (the first result written for it while the batch is
    not frozen) raises the counter by exactly 1 and no other step changes
    it; every step keeps the status or moves it along one of the edges
    queued -> processing, processing -> completed, queued -> failed,
    processing -> failed; and a step on a completed or failed batch
    changes nothing. *)
Theorem completedCount_bounded_and_status_forward
    (T : nat) (events : list BatchStore.Event) (e : BatchStore.Event) :
  Forall (of_batch T) events → of_batch T e →
  let b := BatchStore.run events (BatchStore.createBatch T) in
  let b' := BatchStore.step b e in
  BatchStore.total b = T
  ∧ BatchStore.completedCount b ≤ T
  ∧ BatchStore.completedCount b' ≤ T
  ∧ (completes_item b e →
       BatchStore.completedCount b' = S (BatchStore.completedCount b))
  ∧ (¬ completes_item b e →
       BatchStore.completedCount b' = BatchStore.completedCount b)
  ∧ forward (BatchStore.status b) (BatchStore.status b')
  ∧ (BatchStore.terminal (BatchStore.status b) = true → b' = b).
Proof.
  intros Hevents He b b'.
  pose proof (run_inv T events Hevents) as Hinv. fold b in Hinv.
  pose proof (step_inv T b e He Hinv) as Hinv'. fold b' in Hinv'.
  split; [apply Hinv|].
  split; [by apply batch_inv_bound|]. split; [by apply batch_inv_bound|].
  split; [apply step_counter|]. split; [apply step_counter|].
  apply step_status.
Qed.

Lemma completedCount_bounded_and_status_forward_witness :
  let b := BatchStore.run
             [BatchStore.Dequeued; BatchStore.ItemDone 0 (BatchStore.error "a")]
             (BatchStore.createBatch 2) in
  let b' := BatchStore.step b (BatchStore.ItemDone 1 (BatchStore.error "b")) in
  BatchStore.total b = 2
  ∧ BatchStore.completedCount b ≤ 2
  ∧ BatchStore.completedCount b' ≤ 2
  ∧ (completes_item b (BatchStore.ItemDone 1 (BatchStore.error "b")) →
       BatchStore.completedCount b' = S (BatchStore.completedCount b))
  ∧ (¬ completes_item b (BatchStore.ItemDone 1 (BatchStore.error "b")) →
       BatchStore.completedCount b' = BatchStore.completedCount b)
  ∧ forward (BatchStore.status b) (BatchStore.status b')
  ∧ (BatchStore.terminal (BatchStore.status b) = true → b' = b).
Proof.
  apply (completedCount_bounded_and_status_forward 2
           [BatchStore.Dequeued; BatchStore.ItemDone 0 (BatchStore.error "a")]
           (BatchStore.ItemDone 1 (BatchStore.error "b"))).
  - repeat constructor; simpl; lia.
  - simpl; lia.
Defined.

(** ** The status reply and what the page shows of it *)

Lemma status_name_completed s : status_name s = "completed" → s = BatchStore.completed.
Proof. by destruct s. Qed.

(** The results card is rendered only for a batch whose status is
    [completed] and that carries results. *)
Lemma results_card_only_completed st rs :
  BatchAnalyze.results_card (BatchAnalyze.render st) = Some rs →
  ∃ s, BatchAnalyze.batchStatus st = Some s
       ∧ BatchAnalyze.status s = "completed"
       ∧ BatchAnalyze.results s = Some rs.
Proof.
  unfold BatchAnalyze.render; cbn. destruct (BatchAnalyze.batchStatus st) as [s|]; [|done].
  cbn. destruct (bool_decide_reflect (BatchAnalyze.status s = "completed")) as [Hc|];
    [|intros [=]].
  destruct (BatchAnalyze.results s) as [rs'|] eqn:Hr; [|intros [=]].
  destruct (bool_decide (0 < length rs')); intros [= ->]. by exists s.
Qed.

(** C7. The reply to a status request for a batch, at any point of any
    run, carries results only when its status is [completed] and an error
    only when its status is [failed], so a [queued] or [processing] reply
    carries neither; and the page, whatever its state, renders the
    results card only from a stored status that is [completed], so that
    for such a reply it shows results only for a completed batch and a
    batch error only for a failed one. *)
Theorem status_reply_results_only_completed_error_only_failed
    (T : nat) (events : list BatchStore.Event)
    (batchId : string) (names : nat → string) (progress : Z)
    (st : BatchAnalyze.State) :
  let r := BatchStore.statusResponse (BatchStore.run events (BatchStore.createBatch T)) in
  let page :=
    BatchAnalyze.render
      (BatchAnalyze.setBatchStatus (Some (status_on_wire batchId names progress r)) st) in
  (is_Some (BatchStore.resp_results r) → BatchStore.resp_status r = BatchStore.completed)
  ∧ (is_Some (BatchStore.resp_error r) → BatchStore.resp_status r = BatchStore.failed)
  ∧ (BatchStore.terminal (BatchStore.resp_status r) = false →
       BatchStore.resp_results r = None ∧ BatchStore.resp_error r = None)
  ∧ (∀ rs, BatchAnalyze.results_card (BatchAnalyze.render st) = Some rs →
       ∃ s, BatchAnalyze.batchStatus st = Some s
            ∧ BatchAnalyze.status s = "completed"
            ∧ BatchAnalyze.results s = Some rs)
  ∧ (is_Some (BatchAnalyze.results_card page) →
       BatchStore.resp_status r = BatchStore.completed)
  ∧ (∀ c, BatchAnalyze.status_card page = Some c →
          is_Some (BatchAnalyze.card_error c) →
          BatchStore.resp_status r = BatchStore.failed).
Proof.
  intros r page.
  pose proof (run_fault_inv T events) as Hfault. unfold fault_inv in Hfault.
  set (b := BatchStore.run events (BatchStore.createBatch T)) in *.
  assert (is_Some (BatchStore.resp_results r) →
          BatchStore.resp_status r = BatchStore.completed) as Hres.
  { subst r. cbn. destruct (BatchStore.status b); by intros [x Hx]. }
  assert (is_Some (BatchStore.resp_error r) →
          BatchStore.resp_status r = BatchStore.failed) as Herr.
  { subst r. cbn. exact Hfault. }
  split; [exact Hres|]. split; [exact Herr|]. split.
  { intros Hterm. split.
    - destruct (BatchStore.resp_results r) eqn:E; [|done].
      rewrite Hres in Hterm by by eexists. done.
    - destruct (BatchStore.resp_error r) eqn:E; [|done].
      rewrite Herr in Hterm by by eexists. done. }
  split; [intros rs; apply results_card_only_completed|]. split.
  - intros [rs Hrs]. apply results_card_only_completed in Hrs as (s & [= <-] & Hs & _).
    cbn in Hs. by apply status_name_completed.
  - intros c [= <-]. cbn. intros Hshown. apply Herr.
    unfold BatchAnalyze.shown in Hshown. subst r. cbn in *.
    destruct (BatchStore.fault b); [by eexists|]. by destruct Hshown.
Qed.

(** ** The router: round-robin over the healthy workers *)

Section Counting.
Variable hs : list bool.
Let n := length hs.

Lemma healthy_at_shift a : healthy_at hs (a + n) = healthy_at hs a.
Proof.
  unfold healthy_at. fold n. replace (a + n) with (a + 1 * n) by lia.
  by rewrite Nat.Div0.mod_add.
Qed.

Lemma hits_app i l1 : ∀ a l2, hits hs i a (l1 + l2) = hits hs i a l1 + hits hs i (a + l1) l2.
Proof.
  induction l1 as [|l1 IH]; intros a l2; cbn [hits Nat.add].
  - by rewrite Nat.add_0_r.
  - rewrite IH. replace (S a + l1) with (a + S l1) by lia. lia.
Qed.

Lemma healthy_in_app l1 : ∀ a l2,
  healthy_in hs a (l1 + l2) = healthy_in hs a l1 + healthy_in hs (a + l1) l2.
Proof.
  induction l1 as [|l1 IH]; intros a l2; cbn [healthy_in Nat.add].
  - by rewrite Nat.add_0_r.
  - rewrite IH. replace (S a + l1) with (a + S l1) by lia. lia.
Qed.

Lemma hits_le i len : ∀ a, hits hs i a len ≤ healthy_in hs a len.
Proof.
  induction len as [|len IH]; intros a; cbn [hits healthy_in]; [done|].
  specialize (IH (S a)). destruct (bool_decide _), (healthy_at hs a); cbn; lia.
Qed.

Lemma hits_one i a :
  hits hs i a 1 = if bool_decide (a mod n = i) && healthy_at hs a then 1 else 0.
Proof. cbn [hits]. fold n. lia. Qed.

Lemma hits_one_shift i a : hits hs i (a + n) 1 = hits hs i a 1.
Proof.
  rewrite !hits_one, healthy_at_shift. replace (a + n) with (a + 1 * n) by lia.
  by rewrite Nat.Div0.mod_add.
Qed.

Lemma healthy_in_one_shift a : healthy_in hs (a + n) 1 = healthy_in hs a 1.
Proof. cbn [healthy_in]. by rewrite healthy_at_shift. Qed.

(** A window of [n] positions counts the same wherever it starts. *)
Lemma hits_window i a : hits hs i a n = hits hs i 0 n.
Proof.
  induction a as [|a IH]; [done|]. rewrite <- IH.
  pose proof (hits_app i 1 a n) as H1. pose proof (hits_app i n a 1) as H2.
  rewrite hits_one_shift in H2. replace (1 + n) with (n + 1) in H1 by lia.
  replace (a + 1) with (S a) in H1 by lia. lia.
Qed.

Lemma healthy_in_window a : healthy_in hs a n = healthy_in hs 0 n.
Proof.
  induction a as [|a IH]; [done|]. rewrite <- IH.
  pose proof (healthy_in_app 1 a n) as H1. pose proof (healthy_in_app n a 1) as H2.
  rewrite healthy_in_one_shift in H2. replace (1 + n) with (n + 1) in H1 by lia.
  replace (a + 1) with (S a) in H1 by lia. lia.
Qed.

Lemma hits_rounds i m : ∀ a, hits hs i a (m * n) = m * hits hs i 0 n.
Proof.
  induction m as [|m IH]; intros a; [done|].
  cbn [Nat.mul]. by rewrite hits_app, IH, hits_window.
Qed.

Lemma healthy_in_rounds m : ∀ a, healthy_in hs a (m * n) = m * healthy_in hs 0 n.
Proof.
  induction m as [|m IH]; intros a; [done|].
  cbn [Nat.mul]. by rewrite healthy_in_app, IH, healthy_in_window.
Qed.

Lemma hits_prefix i len : ∀ a, a + len ≤ n →
  hits hs i a len
  = if bool_decide (a ≤ i < a + len) && healthy_at hs i then 1 else 0.
Proof.
  induction len as [|len IH]; intros a Hle; cbn [hits].
  - rewrite bool_decide_eq_false_2 by lia. done.
  - rewrite IH by lia. fold n. rewrite (Nat.mod_small a n) by lia.
    destruct (bool_decide_reflect (a = i)) as [->|Hne].
    + rewrite (bool_decide_eq_false_2 (S i ≤ i < _)) by lia.
      rewrite (bool_decide_eq_true_2 (i ≤ i < _)) by lia. cbn. lia.
    + cbn [andb]. destruct (decide (a ≤ i < a + S len)).
      * rewrite !bool_decide_eq_true_2 by lia. done.
      * rewrite !bool_decide_eq_false_2 by lia. done.
Qed.

Lemma healthy_in_prefix len : ∀ a, a + len ≤ n →
  healthy_in hs a len = length (List.filter id (take len (drop a hs))).
Proof.
  induction len as [|len IH]; intros a Hle; cbn [healthy_in]; [done|].
  destruct (lookup_lt_is_Some_2 hs a) as [b Hb]; [fold n; lia|].
  rewrite (drop_S _ _ _ Hb). cbn [take List.filter]. rewrite IH by lia.
  unfold healthy_at. fold n. rewrite (Nat.mod_small a n) by lia. rewrite Hb. cbn.
  by destruct b.
Qed.

Lemma healthy_in_all : healthy_in hs 0 n = length (List.filter id hs).
Proof.
  rewrite healthy_in_prefix by lia. unfold n. by rewrite drop_0, firstn_all.
Qed.


(** Equal healthy counts over two windows from the same start give equal
    hits: the longer window only adds positions without a healthy worker. *)
Lemma hits_same_count i a l1 l2 :
  healthy_in hs a l1 = healthy_in hs a l2 → hits hs i a l1 = hits hs i a l2.
Proof.
  assert (∀ l e, healthy_in hs a (l + e) = healthy_in hs a l →
                 hits hs i a (l + e) = hits hs i a l) as Hext.
  { intros l e He. rewrite healthy_in_app in He. rewrite hits_app.
    pose proof (hits_le i e (a + l)). lia. }
  intros Heq. destruct (decide (l1 ≤ l2)).
  - replace l2 with (l1 + (l2 - l1)) in * by lia. symmetry. by apply Hext.
  - replace l1 with (l2 + (l1 - l2)) in * by lia. by apply Hext.
Qed.

End Counting.

Section Scanning.
Import Router.
Variable ws : list Worker.
Let hs := map healthy ws.
Let n := length ws.

Lemma flags_length : length hs = n.
Proof. apply length_map. Qed.

Lemma healthy_at_lookup p w :
  ws !! (p mod n) = Some w → healthy_at hs p = healthy w.
Proof.
  intros Hw. unfold healthy_at. rewrite flags_length. unfold hs.
  by rewrite list_lookup_fmap, Hw.
Qed.

Lemma scan_mod fuel : ∀ pos, scan ws fuel (pos mod n) = scan ws fuel pos.
Proof.
  induction fuel as [|fuel IH]; intros pos; [done|]. cbn [scan]. fold n.
  rewrite Nat.Div0.mod_mod. destruct (ws !! (pos mod n)) as [w|]; [|done].
  destruct (healthy w); [done|].
  rewrite <- (IH (S (pos mod n))), <- (IH (S pos)). f_equal.
  replace (S (pos mod n)) with (pos mod n + 1) by lia.
  replace (S pos) with (pos + 1) by lia.
  by rewrite Nat.Div0.add_mod_idemp_l.
Qed.

Lemma scan_found fuel : ∀ a s,
  scan ws fuel a = Some s →
  ∃ d, d < fuel ∧ s = (a + d) mod n ∧ s < n
       ∧ healthy_in hs a d = 0 ∧ healthy_at hs (a + d) = true.
Proof.
  induction fuel as [|fuel IH]; intros a s; [done|]. cbn [scan]. fold n.
  destruct (ws !! (a mod n)) as [w|] eqn:Hw; [|done].
  pose proof (healthy_at_lookup a w Hw) as Hat.
  destruct (healthy w) eqn:Hh.
  - intros [= <-]. exists 0. rewrite Nat.add_0_r.
    apply lookup_lt_Some in Hw. fold n in Hw. repeat split; [lia|done..].
  - intros Hs. destruct (IH _ _ Hs) as (d & Hd & -> & Hlt & Hnone & Hyes).
    exists (S d). replace (a + S d) with (S a + d) by lia.
    split; [lia|]. split; [done|]. split; [done|]. split; [|done].
    cbn [healthy_in]. by rewrite Hat, Hnone.
Qed.

Lemma scan_none fuel : ∀ a,
  0 < n → scan ws fuel a = None → healthy_in hs a fuel = 0.
Proof.
  induction fuel as [|fuel IH]; intros a Hn; [done|]. cbn [scan healthy_in]. fold n.
  destruct (lookup_lt_is_Some_2 ws (a mod n)) as [w Hw].
  { fold n. apply Nat.mod_upper_bound. lia. }
  rewrite Hw, (healthy_at_lookup a w Hw). destruct (healthy w); [done|].
  intros Hs. by rewrite IH.
Qed.

(** With a healthy worker in the list, the scan from any position finds
    the first healthy position [a + d], which is the only healthy one of
    the [d + 1] positions it passes. *)
Lemma scan_first a :
  0 < length (listHealthy ws) →
  ∃ d s, scan ws n a = Some s ∧ s = (a + d) mod n ∧ s < n
         ∧ healthy_in hs a (d + 1) = 1
         ∧ ∀ i, hits hs i a (d + 1) = if bool_decide (s = i) then 1 else 0.
Proof.
  intros HK.
  assert (healthy_in hs 0 (length hs) = length (listHealthy ws)) as Hall.
  { rewrite healthy_in_all. unfold listHealthy, hs. clear.
    induction ws as [|w l IH]; [done|]. cbn. destruct (healthy w); cbn; by rewrite IH. }
  assert (0 < n) as Hn.
  { destruct ws; [cbn in HK; lia|cbn; lia]. }
  destruct (scan ws n a) as [s|] eqn:Hs.
  - destruct (scan_found _ _ _ Hs) as (d & Hd & -> & Hlt & Hnone & Hyes).
    exists d, ((a + d) mod n). split; [done|]. split; [done|]. split; [done|].
    split.
    + rewrite healthy_in_app, Hnone. cbn [healthy_in]. by rewrite Hyes.
    + intros i. rewrite hits_app. pose proof (hits_le hs i d a) as Hle.
      rewrite Hnone in Hle. rewrite hits_one, Hyes, flags_length, andb_true_r. lia.
  - apply scan_none in Hs; [|done].
    rewrite <- flags_length in Hs. rewrite healthy_in_window in Hs. lia.
Qed.

End Scanning.

Section Routing.
Import Router.

Lemma listHealthy_flags ws :
  length (listHealthy ws) = length (List.filter id (map healthy ws)).
Proof.
  unfold listHealthy. induction ws as [|w l IH]; [done|].
  cbn. destruct (healthy w); cbn; by rewrite IH.
Qed.

Lemma flags_alter (f : Worker → Worker) i ws :
  (∀ w, healthy (f w) = healthy w) → map healthy (alter f i ws) = map healthy ws.
Proof.
  intros Hf. revert i. induction ws as [|w l IH]; intros [|i]; cbn; try done.
  - by rewrite Hf.
  - f_equal. apply IH.
Qed.

Lemma healthy_in_mod hs len : ∀ a b,
  a mod length hs = b mod length hs → healthy_in hs a len = healthy_in hs b len.
Proof.
  induction len as [|len IH]; intros a b Hab; cbn [healthy_in]; [done|].
  unfold healthy_at. rewrite Hab. f_equal. apply IH.
  replace (S a) with (a + 1) by lia. replace (S b) with (b + 1) by lia.
  by rewrite <- (Nat.Div0.add_mod_idemp_l a), Hab, Nat.Div0.add_mod_idemp_l.
Qed.

Lemma hits_mod hs i len : ∀ a b,
  a mod length hs = b mod length hs → hits hs i a len = hits hs i b len.
Proof.
  induction len as [|len IH]; intros a b Hab; cbn [hits]; [done|].
  unfold healthy_at. rewrite Hab. f_equal. apply IH.
  replace (S a) with (a + 1) by lia. replace (S b) with (b + 1) by lia.
  by rewrite <- (Nat.Div0.add_mod_idemp_l a), Hab, Nat.Div0.add_mod_idemp_l.
Qed.

(** One request that its worker answers: the worker is the first healthy
    one from the cursor on, its counter grows by one, the cursor moves
    just past it, and no health flag changes. *)
Lemma route_answered maxRetries now r :
  0 < length (listHealthy (workers r)) → 0 < maxRetries →
  let n := length (workers r) in
  let r' := (route maxRetries (λ _, true) now r).1 in
  ∃ d s, s = (cursor r + d) mod n ∧ s < n
         ∧ healthy_in (flags r) (cursor r) (d + 1) = 1
         ∧ (∀ i, hits (flags r) i (cursor r) (d + 1) = if bool_decide (s = i) then 1 else 0)
         ∧ flags r' = flags r
         ∧ cursor r' = S s mod n
         ∧ ∀ i, served_by r' i = served_by r i + if bool_decide (s = i) then 1 else 0.
Proof.
  intros HK Hmax n r'.
  destruct (scan_first (workers r) (cursor r) HK) as (d & s & Hscan & Hs & Hlt & Hin & Hhits).
  exists d, s. split; [done|]. split; [done|]. split; [done|]. split; [done|].
  assert (r' = mkRouter (recordCompletion s (recordDispatch s (workers r)))
                 (S s mod n) (S (totalRouted r))) as ->.
  { subst r'. unfold route. rewrite bool_decide_eq_false_2 by lia.
    destruct (length (listHealthy (workers r)) `min` maxRetries) as [|budget] eqn:Hb; [lia|].
    cbn [attempt]. unfold select. cbn [workers cursor]. by rewrite Hscan. }
  split; [|split; [done|]].
  - unfold flags. cbn [workers]. unfold recordCompletion, recordDispatch.
    by rewrite !flags_alter.
  - intros i. unfold served_by. cbn [workers]. unfold recordCompletion, recordDispatch.
    destruct (bool_decide_reflect (s = i)) as [<-|Hne].
    + rewrite !list_lookup_alter_eq.
      destruct (lookup_lt_is_Some_2 (workers r) s Hlt) as [w ->]. cbn. lia.
    + rewrite !list_lookup_alter_ne by done. lia.
Qed.

Lemma routed_start r0 : routed r0 0 r0.
Proof.
  exists 0. rewrite Nat.add_0_r. split; [done|]. split; [done|]. split; [by left|].
  split; [done|]. intros i. cbn. lia.
Qed.

Lemma routed_step maxRetries now r0 t r :
  0 < length (listHealthy (workers r0)) → 0 < maxRetries →
  routed r0 t r → routed r0 (S t) (route maxRetries (λ _, true) now r).1.
Proof.
  intros HK Hmax (len & Hflags & Hcur & _ & Hcount & Hserved).
  assert (length (workers r) = length (flags r0)) as Hlen.
  { rewrite <- Hflags. unfold flags. by rewrite length_map. }
  assert (0 < length (flags r0)) as Hn.
  { unfold flags. rewrite length_map. destruct (workers r0); [cbn in HK; lia|cbn; lia]. }
  assert (0 < length (listHealthy (workers r))) as HK'.
  { rewrite listHealthy_flags in *. fold (flags r). by rewrite Hflags. }
  destruct (route_answered maxRetries now r HK' Hmax)
    as (d & s & Hs & Hlt & Hin & Hhits & Hflags' & Hcur' & Hserved').
  rewrite Hlen in *. rewrite Hflags in *. unfold routed.
  set (n := length (flags r0)) in *. set (c0 := cursor r0) in *.
  assert ((cursor r + d) mod n = (c0 + len + d) mod n) as Hpos.
  { rewrite <- (Nat.Div0.add_mod_idemp_l (cursor r)), Hcur.
    by rewrite Nat.Div0.add_mod_idemp_l. }
  exists (len + (d + 1)).
  split; [done|]. split; [|split; [|split]].
  - rewrite Hcur', Hs, Hpos, Nat.Div0.mod_mod.
    replace (S ((c0 + len + d) mod n)) with ((c0 + len + d) mod n + 1) by lia.
    rewrite Nat.Div0.add_mod_idemp_l. f_equal. lia.
  - right. rewrite Hcur'. apply Nat.mod_upper_bound. lia.
  - rewrite healthy_in_app, Hcount.
    rewrite (healthy_in_mod (flags r0) (d + 1) (c0 + len) (cursor r)); [lia|].
    symmetry. exact Hcur.
  - intros i. rewrite Hserved', Hserved, hits_app.
    rewrite (hits_mod (flags r0) i (d + 1) (c0 + len) (cursor r));
      [|symmetry; exact Hcur].
    rewrite Hhits. lia.
Qed.

Lemma routed_all maxRetries now r0 N : ∀ t r,
  0 < length (listHealthy (workers r0)) → 0 < maxRetries →
  routed r0 t r → routed r0 (t + N) (routeAll maxRetries N now r).
Proof.
  induction N as [|N IH]; intros t r HK Hmax Hr; cbn [routeAll].
  - by rewrite Nat.add_0_r.
  - replace (t + S N) with (S t + N) by lia. apply IH; [done..|].
    by apply routed_step.
Qed.

End Routing.

Section Fairness.
Import Router.

Lemma healthy_in_all_healthy hs len : ∀ a,
  Forall (λ b, b = true) hs → 0 < length hs → healthy_in hs a len = len.
Proof.
  intros a Hall Hn. revert a. induction len as [|len IH]; intros a; cbn [healthy_in]; [done|].
  rewrite IH. unfold healthy_at.
  destruct (lookup_lt_is_Some_2 hs (a mod length hs)) as [b Hb].
  { apply Nat.mod_upper_bound. lia. }
  rewrite Hb. cbn. rewrite Forall_lookup in Hall. by rewrite (Hall _ _ Hb).
Qed.

(** After [m] rounds of [K] answered requests every healthy worker has
    served [m] of them and the others none. *)
Lemma rounds_served r m maxRetries now i w :
  0 < length (listHealthy (workers r)) → 0 < maxRetries →
  workers r !! i = Some w →
  served_by (routeAll maxRetries (m * length (listHealthy (workers r))) now r) i
  = served_by r i + if healthy w then m else 0.
Proof.
  intros HK Hmax Hw.
  destruct (routed_all maxRetries now r (m * length (listHealthy (workers r))) 0 r
              HK Hmax (routed_start r)) as (len & _ & _ & _ & Hcount & Hserved).
  rewrite Hserved. f_equal.
  assert (length (flags r) = length (workers r)) as Hlen by apply length_map.
  assert (i < length (flags r)) as Hi by (rewrite Hlen; by eapply lookup_lt_Some).
  rewrite (hits_same_count (flags r) i (cursor r) len (m * length (flags r))).
  - rewrite hits_rounds, hits_prefix by lia.
    rewrite bool_decide_eq_true_2 by lia. cbn [andb].
    unfold healthy_at. rewrite Nat.mod_small by done.
    unfold flags. rewrite list_lookup_fmap, Hw. cbn. destruct (healthy w); lia.
  - rewrite Hcount, healthy_in_rounds, healthy_in_all, listHealthy_flags. done.
Qed.

Lemma rounds_cursor r m maxRetries now :
  0 < length (listHealthy (workers r)) → 0 < maxRetries →
  Forall (λ w, healthy w = true) (workers r) → cursor r < length (workers r) →
  cursor (routeAll maxRetries (m * length (listHealthy (workers r))) now r) = cursor r.
Proof.
  intros HK Hmax Hall Hcur.
  destruct (routed_all maxRetries now r (m * length (listHealthy (workers r))) 0 r
              HK Hmax (routed_start r)) as (len & _ & Hmod & Hlt & Hcount & _).
  assert (length (flags r) = length (workers r)) as Hlen by apply length_map.
  assert (Forall (λ b, b = true) (flags r)) as Hflags.
  { unfold flags. by apply Forall_fmap. }
  rewrite Hlen in *.
  assert (∀ a l, healthy_in (flags r) a l = l) as Hin.
  { intros a l. apply healthy_in_all_healthy; [done|rewrite Hlen; lia]. }
  assert (length (listHealthy (workers r)) = length (workers r)) as HKn.
  { rewrite listHealthy_flags. fold (flags r).
    by rewrite <- healthy_in_all, Hin, Hlen. }
  rewrite HKn in *. rewrite Hin in Hcount. cbn [Nat.add] in *. subst len.
  destruct Hlt as [Hz|Hlt].
  - assert (m = 0) as -> by nia. done.
  - rewrite <- (Nat.mod_small _ _ Hlt), Hmod, Nat.Div0.mod_add. by apply Nat.mod_small.
Qed.

End Fairness.

(** C2. With [K >= 1] healthy workers and a retry budget of at least one
    worker, [m * K] requests that are all answered leave every healthy
    worker with exactly [m] more served requests and every other worker
    with none, so the requests served by two healthy workers never differ
    by more than 1; when all workers are healthy the cursor is back where
    it started; and with the three workers of the guide, six requests
    give the served counts [2; 2; 2] and the cursor returns to its
    starting position, whichever it was. *)
Theorem round_robin_serves_healthy_workers_equally
    (r : Router.Router) (m maxRetries : nat) (now : N) :
  let K := length (Router.listHealthy (Router.workers r)) in
  1 ≤ K → 1 ≤ maxRetries →
  let r' := Router.routeAll maxRetries (m * K) now r in
  (∀ i w, Router.workers r !! i = Some w →
          served_by r' i = served_by r i + if Router.healthy w then m else 0)
  ∧ (∀ i j wi wj,
       Router.workers r !! i = Some wi → Router.workers r !! j = Some wj →
       Router.healthy wi = true → Router.healthy wj = true →
       served_since r r' i ≤ served_since r r' j + 1
       ∧ served_since r r' i = m)
  ∧ (Forall (λ w, Router.healthy w = true) (Router.workers r) →
     Router.cursor r < length (Router.workers r) →
     Router.cursor r' = Router.cursor r)
  ∧ (∀ c, c < 3 →
       let r6 := Router.routeAll maxRetries 6 now (Router.mkRouter three_workers c 0) in
       Router.served r6 = [2; 2; 2] ∧ Router.cursor r6 = c).
Proof.
  intros K HK Hmax r'.
  assert (∀ i w, Router.workers r !! i = Some w →
                 served_by r' i = served_by r i + if Router.healthy w then m else 0) as Hserved.
  { intros i w Hw. by apply rounds_served. }
  split; [exact Hserved|]. split; [|split].
  - intros i j wi wj Hi Hj Hhi Hhj. unfold served_since.
    rewrite (Hserved i wi Hi), (Hserved j wj Hj), Hhi, Hhj. lia.
  - intros Hall Hcur. by apply rounds_cursor.
  - intros c Hc. destruct maxRetries as [|k]; [lia|].
    destruct c as [|[|[|c]]]; [vm_compute; done..|lia].
Qed.

Lemma round_robin_serves_healthy_workers_equally_witness :
  let r := Router.mkRouter three_workers 0 0 in
  let r' := Router.routeAll 3 (2 * 3) 0 r in
  (∀ i w, Router.workers r !! i = Some w →
          served_by r' i = served_by r i + if Router.healthy w then 2 else 0)
  ∧ (∀ i j wi wj,
       Router.workers r !! i = Some wi → Router.workers r !! j = Some wj →
       Router.healthy wi = true → Router.healthy wj = true →
       served_since r r' i ≤ served_since r r' j + 1
       ∧ served_since r r' i = 2)
  ∧ (Forall (λ w, Router.healthy w = true) (Router.workers r) →
     Router.cursor r < length (Router.workers r) →
     Router.cursor r' = Router.cursor r)
  ∧ (∀ c, c < 3 →
       let r6 := Router.routeAll 3 6 0 (Router.mkRouter three_workers c 0) in
       Router.served r6 = [2; 2; 2] ∧ Router.cursor r6 = c).
Proof.
  apply (round_robin_serves_healthy_workers_equally
           (Router.mkRouter three_workers 0 0) 2 3 0%N); simpl; lia.
Defined.

(** ** Authentication, routing and the navigation bar *)

Section Authentication.
Import AuthContext.

Lemma login_user email password st u :
  user (login email password st).2 = Some u → user st = Some u ∨ mock_account u.
Proof.
  unfold login. destruct (_ || _) eqn:G; [|by left].
  apply login_guard_iff in G as [[-> ->]|[-> ->]]; cbn; intros [= <-]; right;
    eexists; cbn; eauto.
Qed.

Lemma login_cases email password st :
  (demo_credentials email password →
     ∃ u, login email password st = (true, mkAuth (Some u) (Some u)))
  ∧ (¬ demo_credentials email password → login email password st = (false, st)).
Proof.
  unfold login. destruct (_ || _) eqn:G.
  - apply login_guard_iff in G as D. split; [|done]. intros _.
    destruct D as [[-> ->]|[-> ->]]; by eexists.
  - split; [|done]. intros D. apply login_guard_iff in D. congruence.
Qed.

Lemma auth_step_inv st a :
  currentUser st = user st ∧ (∀ u, user st = Some u → mock_account u) →
  currentUser (auth_step st a) = user (auth_step st a)
  ∧ (∀ u, user (auth_step st a) = Some u → mock_account u).
Proof.
  intros [Hsync Hmock]. destruct a as [email password| |role]; cbn [auth_step].
  - split.
    + unfold login. by destruct (_ || _).
    + intros u Hu. destruct (login_user _ _ _ _ Hu); auto.
  - done.
  - unfold switchRole. destruct (user st) as [u|] eqn:Hu; [|by rewrite Hu].
    destruct role as [r|]; [|by rewrite Hu]. split; [done|].
    cbn. intros u' [= <-]. destruct (Hmock u eq_refl) as (u0 & H0 & Hid & Hname & _).
    exists u0. cbn. eauto.
Qed.

End Authentication.

(** X1. Whatever sequence of logins, logouts and role switches follows a
    first visit, the stored [currentUser] equals the signed-in user, a
    signed-in user always has the id, name and e-mail of the mock account
    registered under its e-mail and a role that is not [null], and
    [isAdmin] implies [isAuthenticated]. *)
Theorem auth_runs_keep_mock_accounts (actions : list AuthAction) :
  let st := foldl auth_step signed_out actions in
  AuthContext.currentUser st = AuthContext.user st
  ∧ (∀ u, AuthContext.user st = Some u → mock_account u)
  ∧ (AuthContext.isAdmin st = true → AuthContext.isAuthenticated st = true).
Proof.
  cbn zeta.
  assert (AuthContext.currentUser (foldl auth_step signed_out actions)
          = AuthContext.user (foldl auth_step signed_out actions)
          ∧ (∀ u, AuthContext.user (foldl auth_step signed_out actions) = Some u →
                  mock_account u)) as [Hsync Hmock].
  { induction actions as [|a actions IH] using rev_ind; [done|].
    rewrite foldl_app. cbn [foldl]. by apply auth_step_inv. }
  split; [done|]. split; [done|].
  unfold AuthContext.isAdmin, AuthContext.isAuthenticated.
  by destruct (AuthContext.user _).
Qed.

Section PageRouting.
Import App.
Variable matchPath : string → string → bool.

Lemma firstMatch_in rs pathname page :
  firstMatch matchPath rs pathname = Some page → ∃ pattern, (pattern, page) ∈ rs.
Proof.
  induction rs as [|[pattern pg] rs IH]; [done|]. cbn.
  destruct (matchPath pattern pathname).
  - intros [= ->]. exists pattern. left.
  - intros H. destruct (IH H) as [p Hp]. exists p. by right.
Qed.

Lemma Routes_page isAdmin pathname :
  Routes matchPath isAdmin pathname = HomePage
  ∨ ∃ pattern, (pattern, Routes matchPath isAdmin pathname) ∈ routes isAdmin.
Proof.
  unfold Routes. destruct (firstMatch matchPath (routes isAdmin) pathname) eqn:E; [|by left].
  right. by apply firstMatch_in in E.
Qed.

Lemma firstMatch_exact rs p page :
  exact_on_static matchPath → p ∈ static_paths →
  Forall (λ r, r.1 ∈ static_paths) rs → NoDup rs.*1 →
  (p, page) ∈ rs → firstMatch matchPath rs p = Some page.
Proof.
  intros Hexact Hp. induction rs as [|[pattern pg] rs IH]; intros Hst Hnd Hin.
  - by apply elem_of_nil in Hin.
  - apply Forall_cons in Hst as [Hpat Hst]. apply NoDup_cons in Hnd as [Hnotin Hnd].
    cbn. rewrite Hexact by done. apply elem_of_cons in Hin as [[= <- <-]|Hin].
    + by rewrite bool_decide_eq_true_2.
    + rewrite bool_decide_eq_false_2; [by apply IH|].
      intros ->. apply Hnotin. apply list_elem_of_fmap. by exists (p, page).
Qed.

End PageRouting.

Lemma routes_static isAdmin :
  Forall (λ r : string * App.Page, r.1 ∈ static_paths) (App.routes isAdmin)
  ∧ NoDup (App.routes isAdmin).*1.
Proof.
  destruct isAdmin; split; apply (bool_decide_unpack _); vm_compute; exact I.
Qed.

Lemma routes_no_login isAdmin pattern : (pattern, App.LoginPage) ∉ App.routes isAdmin.
Proof.
  intros Hin. apply list_elem_of_In in Hin.
  destruct isAdmin; cbn in Hin; intuition congruence.
Qed.

Lemma routes_dashboard isAdmin pattern :
  (pattern, App.DashboardPage) ∈ App.routes isAdmin → isAdmin = true.
Proof.
  intros Hin. apply list_elem_of_In in Hin.
  destruct isAdmin; [done|]. cbn in Hin. intuition congruence.
Qed.

Lemma AppContent_login_iff matchPath auth pathname :
  App.AppContent matchPath auth pathname = App.LoginPage
  ↔ AuthContext.isAuthenticated auth = false.
Proof.
  unfold App.AppContent.
  destruct (AuthContext.isAuthenticated auth) eqn:Hauth; cbn [negb]; [|done].
  destruct (Routes_page matchPath (AuthContext.isAdmin auth) pathname) as [->|[p Hp]];
    [done|].
  split; [|done]. intros E. rewrite E in Hp. by apply routes_no_login in Hp.
Qed.

(** X2. Whatever the router's path matching, [AppContent] shows the login
    form exactly when nobody is signed in, and shows the dashboard only
    to an admin. *)
Theorem pages_follow_the_role
    (matchPath : string → string → bool) (auth : AuthContext.AuthState)
    (pathname : string) :
  (App.AppContent matchPath auth pathname = App.LoginPage
     ↔ AuthContext.isAuthenticated auth = false)
  ∧ (App.AppContent matchPath auth pathname = App.DashboardPage →
       AuthContext.isAdmin auth = true).
Proof.
  split; [apply AppContent_login_iff|].
  unfold App.AppContent.
  destruct (AuthContext.isAuthenticated auth) eqn:Hauth; cbn [negb]; [|done].
  destruct (Routes_page matchPath (AuthContext.isAdmin auth) pathname) as [->|[p Hp]];
    [done|].
  intros E. rewrite E in Hp. by apply routes_dashboard in Hp.
Qed.

(** X3. With a path matching that tells the static routes apart, every
    item the navigation bar lists for a signed-in user leads to the page
    registered under the item's own path (never to the catch-all), and
    that page is the dashboard exactly for the "Dashboard" item. *)
Theorem menu_items_are_routed
    (matchPath : string → string → bool) (auth : AuthContext.AuthState)
    (item : Navbar.MenuItem) :
  exact_on_static matchPath →
  AuthContext.isAuthenticated auth = true →
  item ∈ Navbar.getMenuItems (AuthContext.isAdmin auth) (AuthContext.isAuthenticated auth) →
  (Navbar.path item, App.AppContent matchPath auth (Navbar.path item))
    ∈ App.routes (AuthContext.isAdmin auth)
  ∧ (App.AppContent matchPath auth (Navbar.path item) = App.DashboardPage
       ↔ Navbar.text item = "Dashboard").
Proof.
  intros Hexact Hauth Hitem. unfold App.AppContent, App.Routes. rewrite Hauth in *.
  cbn [negb].
  destruct (routes_static (AuthContext.isAdmin auth)) as [Hst Hnd].
  assert (∃ page, (Navbar.path item, page) ∈ App.routes (AuthContext.isAdmin auth)
                  ∧ (page = App.DashboardPage ↔ Navbar.text item = "Dashboard"))
    as (page & Hpage & Hdash).
  { apply list_elem_of_In in Hitem.
    destruct (AuthContext.isAdmin auth); cbn in Hitem;
      repeat (destruct Hitem as [<-|Hitem]); try done; cbn;
      eexists; (split; [apply list_elem_of_In; cbn; eauto 10|done]). }
  assert (Navbar.path item ∈ static_paths) as Hp.
  { rewrite Forall_forall in Hst. apply (Hst (Navbar.path item, page) Hpage). }
  rewrite (firstMatch_exact matchPath _ _ page Hexact Hp Hst Hnd Hpage). cbn.
  done.
Qed.

Lemma menu_items_are_routed_witness :
  let matchPath := λ p q : string, bool_decide (p = q) in
  let auth := (AuthContext.login "admin@food.com" "admin123" signed_out).2 in
  let item := Navbar.mkItem "Dashboard" "/dashboard" in
  (Navbar.path item, App.AppContent matchPath auth (Navbar.path item))
    ∈ App.routes (AuthContext.isAdmin auth)
  ∧ (App.AppContent matchPath auth (Navbar.path item) = App.DashboardPage
       ↔ Navbar.text item = "Dashboard").
Proof.
  apply (menu_items_are_routed (λ p q : string, bool_decide (p = q))
           (AuthContext.login "admin@food.com" "admin123" signed_out).2
           (Navbar.mkItem "Dashboard" "/dashboard")).
  - intros p q _ _. reflexivity.
  - reflexivity.
  - vm_compute. do 4 right. left.
Defined.

(** X4. Submitting the login form always ends with [loading] off and the
    typed e-mail and password kept; with one of the two demo pairs no
    error is shown and the application leaves the login form, with any
    other pair the error is "Invalid email or password" and the
    authentication state is untouched. *)
Theorem submitting_the_login_form
    (matchPath : string → string → bool) (st : Login.State)
    (auth : AuthContext.AuthState) (pathname : string) :
  let st' := (Login.handleSubmit st auth).1 in
  let auth' := (Login.handleSubmit st auth).2 in
  Login.loading st' = false
  ∧ Login.email st' = Login.email st ∧ Login.password st' = Login.password st
  ∧ (demo_credentials (Login.email st) (Login.password st) →
       Login.error st' = ""
       ∧ App.AppContent matchPath auth' pathname ≠ App.LoginPage)
  ∧ (¬ demo_credentials (Login.email st) (Login.password st) →
       Login.error st' = "Invalid email or password" ∧ auth' = auth).
Proof.
  cbn zeta. unfold Login.handleSubmit. cbn [Login.email Login.password Login.setLoading
    Login.setError].
  destruct (login_cases (Login.email st) (Login.password st) auth) as (Hyes & Hno).
  destruct (AuthContext.login (Login.email st) (Login.password st) auth)
    as [success auth'] eqn:E. cbn [fst snd] in *.
  split; [by destruct success|]. split; [by destruct success|].
  split; [by destruct success|]. split.
  - intros Hdemo. destruct (Hyes Hdemo) as (u & [= -> ->]). split; [done|].
    intros Hlogin. by apply AppContent_login_iff in Hlogin.
  - intros Hnot. specialize (Hno Hnot). injection Hno as -> ->. done.
Qed.

(** X5. [switchRole] never signs anybody in or out; for every signed-in
    user, switching to the admin role makes [/dashboard] show the
    dashboard and switching to the user role makes it fall through to the
    home page. *)
Theorem switching_role_opens_or_closes_the_dashboard
    (matchPath : string → string → bool) (auth : AuthContext.AuthState)
    (role : option AuthContext.UserRole) :
  exact_on_static matchPath →
  AuthContext.isAuthenticated (AuthContext.switchRole role auth)
  = AuthContext.isAuthenticated auth
  ∧ (AuthContext.isAuthenticated auth = true →
       App.AppContent matchPath (Navbar.handleRoleSwitch AuthContext.RoleAdmin auth)
         "/dashboard" = App.DashboardPage
       ∧ App.AppContent matchPath (Navbar.handleRoleSwitch AuthContext.RoleUser auth)
           "/dashboard" = App.HomePage).
Proof.
  intros Hexact. split.
  - unfold AuthContext.switchRole, AuthContext.isAuthenticated.
    destruct (AuthContext.user auth) eqn:Hu; [|by rewrite Hu].
    destruct role; [done|by rewrite Hu].
  - unfold AuthContext.isAuthenticated, Navbar.handleRoleSwitch, AuthContext.switchRole.
    destruct (AuthContext.user auth) as [u|]; [intros _|done].
    unfold App.AppContent, App.Routes. cbn.
    rewrite !Hexact by (apply (bool_decide_unpack _); vm_compute; exact I).
    done.
Qed.

Lemma switching_role_opens_or_closes_the_dashboard_witness :
  let matchPath := λ p q : string, bool_decide (p = q) in
  let auth := (AuthContext.login "user@food.com" "user123" signed_out).2 in
  AuthContext.isAuthenticated (AuthContext.switchRole (Some AuthContext.RoleAdmin) auth)
  = AuthContext.isAuthenticated auth
  ∧ (AuthContext.isAuthenticated auth = true →
       App.AppContent matchPath (Navbar.handleRoleSwitch AuthContext.RoleAdmin auth)
         "/dashboard" = App.DashboardPage
       ∧ App.AppContent matchPath (Navbar.handleRoleSwitch AuthContext.RoleUser auth)
           "/dashboard" = App.HomePage).
Proof.
  apply (switching_role_opens_or_closes_the_dashboard
           (λ p q : string, bool_decide (p = q))
           (AuthContext.login "user@food.com" "user123" signed_out).2
           (Some AuthContext.RoleAdmin)).
  intros p q _ _. reflexivity.
Defined.

(** ** Errors and requests: what callers of [apiRequest] can rely on *)

Section ErrorContract.
Import Js ApiErrorHandler.

Lemma str_or_nonblank a b : b ≠ "" → str_or a b ≠ "".
Proof. intros Hb. unfold str_or. destruct a as [s|]; [|done]. by case_bool_decide. Qed.

Lemma fromProps_message msg p url d : d ≠ "" → message (fromProps msg p url d) ≠ "".
Proof.
  intros Hd. unfold fromProps. case_bool_decide; [done|].
  destruct (response p); cbn.
  - by repeat apply str_or_nonblank.
  - destruct (request p); [done|]. by apply str_or_nonblank.
Qed.

Lemma fromProps_down msg p url d :
  isServerDown (fromProps msg p url d) = true →
  status (fromProps msg p url d) = 0%Z ∨ (500 ≤ status (fromProps msg p url d))%Z.
Proof.
  unfold fromProps. case_bool_decide; [done|].
  destruct (response p) as [r|]; cbn.
  - rewrite !orb_true_iff, Z.leb_le, !Z.eqb_eq. lia.
  - destruct (request p); cbn; [by left|done].
Qed.

Lemma createApiError_normal error url d :
  error ≠ Null → error ≠ Undefined →
  ∃ e, createApiError error url d = Normal e ∧ serverUrl e = url.
Proof.
  intros Hn Hu. destruct error; try done; cbn.
  - by eexists.
  - destruct (includes "fetch" message0); eexists; split; try done.
    apply fromProps_serverUrl.
  - eexists; split; [done|]. apply fromProps_serverUrl.
  - eexists; split; [done|]. apply fromProps_serverUrl.
Qed.

(** What [apiRequest] does in each of the five situations it tells
    apart. *)
Lemma apiRequest_cases url net (timeout : N) :
  apiRequest url net (Some timeout) =
  match net with
  | Resolves t r =>
      if (t <? timeout)%N then
        if ok r then (t, Normal r)
        else (t, Throw (IsApiError
                          (mkApiError ("HTTP " +:+ pretty (resp_status r) +:+ ": "
                                         +:+ resp_statusText r)
                             500 (Some url) false)))
      else (timeout, Throw (cancelled url))
  | Rejects t msg =>
      if (t <? timeout)%N then
        if includes "fetch" msg then
          (t, Throw (IsApiError
                       (mkApiError
                          "Unable to connect to server. Please check if the server is running."
                          0 (Some url) true)))
        else
          (t, Throw (IsApiError
                       (mkApiError (str_or (Some msg) "An unexpected error occurred")
                          500 (Some url) false)))
      else (timeout, Throw (cancelled url))
  | Pending => (timeout, Throw (cancelled url))
  end.
Proof.
  unfold apiRequest. change (default _ (Some timeout)) with timeout.
  destruct net as [t r|t msg|]; [| |done].
  - destruct (t <? timeout)%N; [|done]. destruct (ok r); [done|]. cbn. done.
  - destruct (t <? timeout)%N; [|done]. unfold rethrowHandled, handleApiError. cbn.
    by destruct (includes "fetch" msg).
Qed.

End ErrorContract.

(** X7. An [ApiError] built by [createApiError] is flagged
    [isServerDown] only when its status is 0 (no reply) or at least
    500. *)
Theorem server_down_only_with_status_0_or_5xx
    (error : ApiErrorHandler.ErrorValue) (url defaultMessage : option string)
    (e : ApiErrorHandler.ApiError) :
  ApiErrorHandler.createApiError error url defaultMessage = ApiErrorHandler.Normal e →
  ApiErrorHandler.isServerDown e = true →
  ApiErrorHandler.status e = 0%Z ∨ (500 ≤ ApiErrorHandler.status e)%Z.
Proof.
  destruct error as [| |s statusText|msg p|e0|msg p]; try done; cbn.
  - intros [= <-]. cbn. rewrite orb_true_iff, Z.leb_le, Z.eqb_eq. lia.
  - destruct (Js.includes "fetch" msg); intros [= <-]; [by left|]. apply fromProps_down.
  - intros [= <-]. apply fromProps_down.
  - intros [= <-]. apply fromProps_down.
Qed.

Lemma server_down_only_with_status_0_or_5xx_witness :
  ApiErrorHandler.status
    (ApiErrorHandler.mkApiError "HTTP 503: Service Unavailable" 503 None true) = 0%Z
  ∨ (500 ≤ ApiErrorHandler.status
             (ApiErrorHandler.mkApiError "HTTP 503: Service Unavailable" 503 None true))%Z.
Proof.
  apply (server_down_only_with_status_0_or_5xx
           (ApiErrorHandler.IsResponse 503 "Service Unavailable") None None
           (ApiErrorHandler.mkApiError "HTTP 503: Service Unavailable" 503 None true));
    reflexivity.
Defined.




(** X10. [makeApiRequest] behaves exactly as [apiRequest] on the base
    url followed by the endpoint, with a default timeout of 30 s: its
    own [Load Balancer request failed] error is never produced. *)
Theorem makeApiRequest_is_apiRequest_on_the_base_url
    (base endpoint : string) (net : ApiErrorHandler.FetchOutcome) (timeout : option N) :
  Api.makeApiRequest base endpoint net timeout
  = ApiErrorHandler.apiRequest (base +:+ endpoint) net (Some (default 30000%N timeout)).
Proof.
  unfold Api.makeApiRequest. rewrite apiRequest_cases.
  destruct net as [t r|t msg|]; [| |done].
  - destruct (t <? default 30000 timeout)%N; [|done]. by destruct (ApiErrorHandler.ok r).
  - destruct (t <? default 30000 timeout)%N; [|done]. by destruct (Js.includes "fetch" msg).
Qed.

Section HealthChecks.
Import Js ApiErrorHandler Api.

Lemma apiRequest_normal_iff url net timeout r :
  (apiRequest url net (Some timeout)).2 = Normal r
  ↔ ∃ t, net = Resolves t r ∧ (t < timeout)%N ∧ ok r = true.
Proof.
  rewrite apiRequest_cases. destruct net as [t r0|t msg|].
  - destruct (N.ltb_spec t timeout) as [Hlt|Hge].
    + destruct (ok r0) eqn:Hok; cbn.
      * split; [intros [= <-]; eauto|]. by intros (t' & [= <- <-] & _).
      * split; [done|]. intros (t' & [= <- <-] & _ & Hok'). congruence.
    + cbn. split; [done|]. intros (t' & [= <- <-] & Hlt & _). lia.
  - split; [|by intros (? & ? & _)].
    destruct (t <? timeout)%N; [|done]. by destruct (includes "fetch" msg).
  - cbn. split; [done|by intros (? & ? & _)].
Qed.

Lemma apiRequest_throws_api_error url net timeout v :
  (apiRequest url net (Some timeout)).2 = Throw v → ∃ e, v = IsApiError e.
Proof.
  rewrite apiRequest_cases. destruct net as [t r0|t msg|].
  - destruct (t <? timeout)%N; [|intros [= <-]; by eexists].
    destruct (ok r0); [done|]. intros [= <-]. by eexists.
  - destruct (t <? timeout)%N; [|intros [= <-]; by eexists].
    destruct (includes "fetch" msg); intros [= <-]; by eexists.
  - intros [= <-]. by eexists.
Qed.

Lemma apiRequest_time url net timeout :
  ((apiRequest url net (Some timeout)).1 ≤ timeout)%N.
Proof.
  rewrite apiRequest_cases. destruct net as [t r0|t msg|]; [| |cbn; lia].
  - destruct (N.ltb_spec t timeout); [|cbn; lia]. destruct (ok r0); cbn [fst]; lia.
  - destruct (N.ltb_spec t timeout); [|cbn; lia].
    destruct (includes "fetch" msg); cbn [fst]; lia.
Qed.

Lemma probe_entry server net t check :
  probe server net = Some (t, check) →
  (healthy check = true ↔ ∃ d, answers_json net 5000 d)
  ∧ (∀ d, data check = Some d ↔ answers_json net 5000 d).
Proof.
  rewrite probe_cases. unfold answers_json.
  assert (∀ P : Prop, (false = true ↔ P) ↔ ¬ P) as Hfalse by (intros P; naive_solver).
  destruct net as [t0 r|t0 msg|].
  - destruct (N.ltb_spec t0 5000) as [Hlt|Hge].
    + destruct (ok r) eqn:Hok.
      * destruct (body r) as [dt d0|dt e|] eqn:Hb; [| |done]; intros [= <- <-]; cbn.
        -- split.
           ++ split; [|done]. intros _. by exists d0, t0, r, dt.
           ++ intros d. split; [intros [= <-]; by exists t0, r, dt|].
              intros (? & ? & ? & [= <- <-] & _ & _ & Hb'). congruence.
        -- split.
           ++ apply Hfalse. intros (? & ? & ? & ? & [= <- <-] & _ & _ & Hb'). congruence.
           ++ intros d. split; [done|].
              intros (? & ? & ? & [= <- <-] & _ & _ & Hb'). congruence.
      * intros [= <- <-]; cbn. split.
        -- apply Hfalse. intros (? & ? & ? & ? & [= <- <-] & _ & Hok' & _). congruence.
        -- intros d. split; [done|].
           intros (? & ? & ? & [= <- <-] & _ & Hok' & _). congruence.
    + intros [= <- <-]; cbn. split.
      * apply Hfalse. intros (? & ? & ? & ? & [= <- <-] & ? & _). lia.
      * intros d. split; [done|]. intros (? & ? & ? & [= <- <-] & ? & _). lia.
  - destruct (t0 <? 5000)%N; intros [= <- <-]; cbn; split;
      try (apply Hfalse; by intros (? & ? & ? & ? & ? & _));
      intros d; (split; [done|]); by intros (? & ? & ? & ? & _).
  - intros [= <- <-]; cbn. split.
    + apply Hfalse. by intros (? & ? & ? & ? & ? & _).
    + intros d. split; [done|]. by intros (? & ? & ? & ? & _).
Qed.

(** [checkLoadBalancerHealth] in terms of its request: whatever the
    request throws is an [ApiError] and is thrown on. *)
Lemma checkHealth_cases base net :
  checkLoadBalancerHealth base net =
  match apiRequest (base +:+ "/health") net (Some 10000%N) with
  | (t, Normal r) =>
      match body r with
      | Parses dt d => Some ((t + dt)%N, Normal d)
      | ReadFails dt _ => Some ((t + dt)%N, Throw (notResponding base))
      | ReadStalls => None
      end
  | (t, Throw v) => Some (t, Throw v)
  end.
Proof.
  unfold checkLoadBalancerHealth, response_json.
  pose proof (apiRequest_throws_api_error (base +:+ "/health") net 10000) as Hthrow.
  destruct (apiRequest _ _ _) as [t [r|v]]; cbn [snd] in *.
  - destruct (body r) as [dt d|dt [m|m]|]; done.
  - by destruct (Hthrow v eq_refl) as [e ->].
Qed.

Lemma checkHealth_stalls base net :
  checkLoadBalancerHealth base net = None ↔ body_stalls net 10000.
Proof.
  rewrite checkHealth_cases. unfold body_stalls.
  pose proof (apiRequest_normal_iff (base +:+ "/health") net 10000) as Hnormal.
  destruct (apiRequest _ _ _) as [t [r|v]]; cbn [snd] in *.
  - destruct (proj1 (Hnormal r) eq_refl) as (t0 & -> & Hlt & Hok).
    destruct (body r) eqn:Hb.
    + split; [done|]. intros (? & ? & [= <- <-] & _ & _ & Hb'). congruence.
    + split; [done|]. intros (? & ? & [= <- <-] & _ & _ & Hb'). congruence.
    + split; [|done]. intros _. by exists t0, r.
  - split; [done|]. intros (t0 & r & -> & Hlt & Hok & _).
    assert (Throw v = Normal r) as E by (apply Hnormal; eauto). done.
Qed.

Lemma checkHealth_normal_iff base net d :
  (∃ t, checkLoadBalancerHealth base net = Some (t, Normal d)) ↔ answers_json net 10000 d.
Proof.
  rewrite checkHealth_cases. unfold answers_json.
  pose proof (apiRequest_normal_iff (base +:+ "/health") net 10000) as Hnormal.
  destruct (apiRequest _ _ _) as [t [r|v]]; cbn [snd] in *.
  - destruct (proj1 (Hnormal r) eq_refl) as (t0 & -> & Hlt & Hok).
    destruct (body r) as [dt d0|dt e|] eqn:Hb.
    + split; [intros [? [= <- <-]]; by exists t0, r, dt|].
      intros (? & ? & ? & [= <- <-] & _ & _ & Hb'). rewrite Hb in Hb'.
      injection Hb' as <- <-. by eexists.
    + split; [by intros [? ?]|].
      intros (? & ? & ? & [= <- <-] & _ & _ & Hb'). congruence.
    + split; [by intros [? ?]|].
      intros (? & ? & ? & [= <- <-] & _ & _ & Hb'). congruence.
  - split; [by intros [? ?]|]. intros (t0 & r & dt & -> & Hlt & Hok & _).
    assert (Throw v = Normal r) as E by (apply Hnormal; eauto). done.
Qed.

Lemma checkHealth_throws base net t v :
  checkLoadBalancerHealth base net = Some (t, Throw v) →
  ∃ e, v = IsApiError e ∧ message e ≠ "".
Proof.
  rewrite checkHealth_cases.
  destruct (apiRequest (base +:+ "/health") net (Some 10000%N)) as [t0 [r|v']] eqn:E.
  - destruct (body r); [done| |done]. intros [= <- <-]. by eexists.
  - intros [= -> ->].
    assert ((apiRequest (base +:+ "/health") net (Some 10000%N)).2 = Throw v) as E'
      by by rewrite E.
    clear E. rewrite apiRequest_cases in E'. destruct net as [t1 r0|t1 msg|]; cbn in E'.
    + destruct (t1 <? 10000)%N; [destruct (ok r0); [done|]|];
        injection E' as <-; by eexists.
    + destruct (t1 <? 10000)%N; [destruct (includes "fetch" msg)|];
        injection E' as <-; eexists; (split; [done|]); try done.
      cbn. by apply (str_or_nonblank (Some msg)).
    + injection E' as <-. by eexists.
Qed.

Lemma checkHealth_time base net t c :
  checkLoadBalancerHealth base net = Some (t, c) → (t ≤ 10000 + body_time net)%N.
Proof.
  rewrite checkHealth_cases.
  pose proof (apiRequest_time (base +:+ "/health") net 10000) as Htime.
  pose proof (apiRequest_normal_iff (base +:+ "/health") net 10000) as Hnormal.
  destruct (apiRequest _ _ _) as [t0 [r|v]]; cbn [fst snd] in *.
  - destruct (proj1 (Hnormal r) eq_refl) as (t1 & -> & _). unfold body_time.
    destruct (body r); [| |done]; intros [= <- <-]; lia.
  - intros [= <- <-]. lia.
Qed.

End HealthChecks.

(** X11. [checkAllBackendServers] settles unless a probed server sent an
    [ok] response in time and never ends its body. When it settles it
    returns one entry per configured server, in order and under the
    server's url; an entry is [healthy] exactly when the server answered
    its [/health] request within 5 s with an [ok] response whose body,
    however long it took, is JSON, and [data] is then that body. *)
Theorem backend_is_healthy_iff_it_answers_json
    (nets : Api.Server → ApiErrorHandler.FetchOutcome) :
  (Api.checkAllBackendServers nets = None
     ↔ ∃ server, server ∈ Api.BACKEND_SERVERS ∧ body_stalls (nets server) 5000)
  ∧ (∀ t checks, Api.checkAllBackendServers nets = Some (t, checks) →
       Forall2
         (λ server check,
            Api.check_url check = Api.url server
            ∧ (Api.healthy check = true ↔ ∃ d, answers_json (nets server) 5000 d)
            ∧ (∀ d, Api.data check = Some d ↔ answers_json (nets server) 5000 d))
         Api.BACKEND_SERVERS checks).
Proof.
  destruct (checkAllBackendServers_cases nets) as [Hnone Hsome].
  split; [exact Hnone|]. intros t checks Hall.
  destruct (Hsome t checks Hall) as (results & Hprobes & -> & _).
  clear Hnone Hsome Hall. apply Forall2_fmap_r.
  eapply Forall2_impl; [exact Hprobes|]. cbv beta.
  intros server [t' check] Hp. cbn [snd]. split.
  - by apply probe_settled in Hp as [? _].
  - by apply probe_entry in Hp.
Qed.

(** X12. [checkLoadBalancerHealth] settles unless an [ok] response
    arrived in time and its body never ends, and then no later than
    10 s plus the time the body took. It returns the JSON body exactly
    when an [ok] reply with such a body arrived in time, and whatever it
    throws is an [ApiError]. On an [ok] reply whose body cannot be read
    it throws [Load Balancer is not responding], where
    [getLoadBalancerStats] throws what the read threw. *)
Theorem health_check_throws_only_api_errors
    (base : string) (net : ApiErrorHandler.FetchOutcome) :
  (Api.checkLoadBalancerHealth base net = None ↔ body_stalls net 10000)
  ∧ (∀ t c, Api.checkLoadBalancerHealth base net = Some (t, c) →
            (t ≤ 10000 + body_time net)%N)
  ∧ (∀ d, (∃ t, Api.checkLoadBalancerHealth base net
                = Some (t, ApiErrorHandler.Normal d))
          ↔ answers_json net 10000 d)
  ∧ (∀ t v, Api.checkLoadBalancerHealth base net = Some (t, ApiErrorHandler.Throw v) →
            ∃ e, v = ApiErrorHandler.IsApiError e)
  ∧ (∀ t r dt e, net = ApiErrorHandler.Resolves t r → (t < 10000)%N →
       ApiErrorHandler.ok r = true →
       ApiErrorHandler.body r = ApiErrorHandler.ReadFails dt e →
       Api.checkLoadBalancerHealth base net
       = Some ((t + dt)%N, ApiErrorHandler.Throw (Api.notResponding base))
       ∧ Api.getLoadBalancerStats base net
         = Some ((t + dt)%N, ApiErrorHandler.Throw (ApiErrorHandler.thrown e))).
Proof.
  split; [apply checkHealth_stalls|]. split; [apply checkHealth_time|].
  split; [intros d; apply checkHealth_normal_iff|]. split.
  - intros t v Hv. destruct (checkHealth_throws base net t v Hv) as (e & -> & _).
    by eexists.
  - intros t r dt e -> Hlt Hok Hb. rewrite checkHealth_cases.
    unfold Api.getLoadBalancerStats, ApiErrorHandler.response_json.
    rewrite !apiRequest_cases, Hok.
    destruct (N.ltb_spec t 10000); [|lia]. by rewrite Hb.
Qed.

(** X13. [testConnection] of the home page never throws. On success it
    stores the health reply and shows no error. When an [ok] response
    arrived in time and its body never ends, it stays waiting with the
    error cleared. In every other case it ends with the error message
    stored and shown, and leaves the health status of the previous test
    in place, so that a success alert shown before stays on the page. *)
Theorem failed_connection_test_keeps_the_old_status
    (base : string) (net : ApiErrorHandler.FetchOutcome) (st : Home.State) :
  (∀ v, Home.testConnection base net st ≠ ApiErrorHandler.Ends (ApiErrorHandler.Throw v))
  ∧ (∀ d, answers_json net 10000 d →
          Home.testConnection base net st
          = ApiErrorHandler.Ends (ApiErrorHandler.Normal (Home.mkState d None)))
  ∧ (body_stalls net 10000 →
       Home.testConnection base net st
       = ApiErrorHandler.Waits (Home.mkState (Home.healthStatus st) None))
  ∧ ((¬ ∃ d, answers_json net 10000 d) → ¬ body_stalls net 10000 →
       ∃ m, Home.testConnection base net st
            = ApiErrorHandler.Ends
                (ApiErrorHandler.Normal (Home.mkState (Home.healthStatus st) (Some m)))
            ∧ Home.successAlert (Home.mkState (Home.healthStatus st) (Some m))
              = Home.successAlert st
            ∧ Home.errorAlert (Home.mkState (Home.healthStatus st) (Some m)) = Some m).
Proof.
  unfold Home.testConnection.
  pose proof (checkHealth_normal_iff base net) as Hnormal.
  pose proof (checkHealth_throws base net) as Hthrow.
  pose proof (checkHealth_stalls base net) as Hstalls.
  destruct (Api.checkLoadBalancerHealth base net) as [[t [d0|v]]|].
  - split; [done|]. split; [|split].
    + intros d Hd. apply Hnormal in Hd as [t' [= _ <-]]. done.
    + intros Hst. by apply Hstalls in Hst.
    + intros Hnone. destruct Hnone. exists d0. apply Hnormal. by exists t.
  - destruct (Hthrow t v eq_refl) as (e & -> & Hmsg).
    assert (Js.str_or (Some (ApiErrorHandler.message e)) "Connection test failed"
            = ApiErrorHandler.message e) as Hstr.
    { unfold Js.str_or. by rewrite bool_decide_eq_false_2. }
    cbn [ApiErrorHandler.messageOf Home.healthStatus Home.healthError]. rewrite Hstr.
    split; [done|]. split; [|split].
    + intros d Hd. by apply Hnormal in Hd as [t' ?].
    + intros Hst. by apply Hstalls in Hst.
    + intros _ _. exists (ApiErrorHandler.message e). split; [done|]. split; [done|].
      unfold Home.errorAlert. cbn [Home.healthError]. by rewrite bool_decide_eq_false_2.
  - split; [done|]. split; [|split].
    + intros d Hd. by apply Hnormal in Hd as [t' ?].
    + done.
    + intros _ Hno. destruct Hno. by apply Hstalls.
Qed.



(** ** The batch page: failed uploads, the end of polling, the file list *)

Section BatchPage.
Import Js BatchAnalyze.





Lemma blob_inj (a b : nat) : "blob:" +:+ pretty a = "blob:" +:+ pretty b → a = b.
Proof. intros E. cbn in E. injection E as E. by apply (inj pretty). Qed.

Lemma newFiles_spec acceptedFiles : ∀ urls fs urls',
  newFiles acceptedFiles urls = (fs, urls') →
  created urls' = created urls + length acceptedFiles
  ∧ preview <$> fs
    = (λ k, "blob:" +:+ pretty k) <$> seq (created urls) (length acceptedFiles)
  ∧ alive urls' = list_to_set (preview <$> fs) ∪ alive urls
  ∧ file <$> fs = acceptedFiles
  ∧ Forall (λ f, file_status f = "waiting") fs.
Proof.
  induction acceptedFiles as [|f rest IH]; intros urls fs urls'; cbn [newFiles].
  - intros [= <- <-]. cbn. split; [lia|]. split; [done|]. split; [set_solver|]. done.
  - unfold createObjectURL.
    destruct (newFiles rest _) as [fs1 urls1] eqn:E. intros [= <- <-].
    apply IH in E as (Hc & Hp & Ha & Hf & Hw). cbn [created alive] in *.
    split; [cbn; lia|]. split; [cbn; by rewrite Hp|]. split; [|split].
    + rewrite Ha. cbn. set_solver.
    + cbn. by rewrite Hf.
    + by constructor.
Qed.

Lemma revokeAll_spec fs : ∀ urls,
  created (revokeAll fs urls) = created urls
  ∧ alive (revokeAll fs urls) = alive urls ∖ list_to_set (preview <$> fs).
Proof.
  unfold revokeAll. induction fs as [|f fs IH]; intros urls; cbn [foldl].
  - split; [done|]. cbn. set_solver.
  - destruct (IH (revokeObjectURL (preview f) urls)) as [Hc Ha]. split; [done|].
    rewrite Ha. cbn. set_solver.
Qed.

Lemma onDrop_inv acceptedFiles page : files_inv page → files_inv (onDrop acceptedFiles page).
Proof.
  destruct page as [st urls]. unfold files_inv, onDrop, previews. cbn [fst snd].
  intros (Hnd & Ha & Hk).
  destruct (newFiles acceptedFiles urls) as [fs urls'] eqn:E.
  apply newFiles_spec in E as (Hc & Hp & Ha' & _ & _). cbn [fst snd files setError setFiles].
  rewrite fmap_app. split; [|split].
  - apply NoDup_app. split; [done|]. split.
    + intros url Hold Hnew. rewrite Forall_forall in Hk.
      destruct (Hk url Hold) as (k & Hlt & ->).
      rewrite Hp in Hnew. apply list_elem_of_fmap in Hnew as (k' & E & Hin).
      apply blob_inj in E as <-. apply elem_of_seq in Hin. lia.
    + rewrite Hp. apply NoDup_fmap_2; [|apply NoDup_seq].
      intros a b. apply blob_inj.
  - rewrite Ha', Ha, list_to_set_app_L. set_solver.
  - apply Forall_app. split.
    + eapply Forall_impl; [exact Hk|]. cbv beta. intros url (k & Hlt & ->).
      exists k. split; [lia|done].
    + rewrite Hp. apply Forall_fmap, Forall_forall. intros k Hin.
      apply elem_of_seq in Hin. cbn. exists k. split; [lia|done].
Qed.

Lemma removeFile_inv index page page' :
  files_inv page → removeFile index page = Some page' → files_inv page'.
Proof.
  destruct page as [st urls]. unfold files_inv, removeFile, previews. cbn [fst snd].
  intros (Hnd & Ha & Hk). destruct (files st !! index) as [f|] eqn:E; [|done].
  intros [= <-]. cbn [fst snd files setFiles alive created revokeObjectURL].
  apply list_elem_of_split_length in E as (l1 & l2 & Hl & Hlen).
  rewrite Hl in *. subst index.
  rewrite delete_middle.
  rewrite fmap_app in *. cbn [fmap list_fmap] in *.
  apply NoDup_app in Hnd as (Hnd1 & Hdis & Hnd2).
  apply NoDup_cons in Hnd2 as [Hnot Hnd2].
  apply Forall_app in Hk as [Hk1 Hk2]. apply Forall_cons in Hk2 as [_ Hk2].
  split; [|split].
  - apply NoDup_app. split; [done|]. split; [|done].
    intros url H1 H2. apply (Hdis url H1). by right.
  - rewrite Ha, !list_to_set_app_L. cbn.
    assert (preview f ∉ list_fmap _ _ preview l1) as Hn1.
    { intros Hin. apply (Hdis _ Hin). by left. }
    set_solver.
  - apply Forall_app. done.
Qed.

Lemma clearAll_inv page : files_inv page → files_inv (clearAll page).
Proof.
  destruct page as [st urls]. unfold files_inv, clearAll, previews. cbn [fst snd].
  intros (Hnd & Ha & Hk). cbn [files setError setBatchStatus setFiles].
  destruct (revokeAll_spec (files st) urls) as [_ Hal].
  split; [constructor|]. split; [|constructor].
  rewrite Hal, Ha. cbn. set_solver.
Qed.

Lemma acts_inv actions : ∀ page page',
  files_inv page → acts actions page = Some page' → files_inv page'.
Proof.
  induction actions as [|a rest IH]; intros page page' Hinv; cbn [acts].
  - by intros [= <-].
  - destruct (act a page) as [page1|] eqn:E; [|done]. cbn. apply IH.
    destruct a as [acceptedFiles|index|]; cbn in E.
    + injection E as <-. by apply onDrop_inv.
    + by eapply removeFile_inv.
    + injection E as <-. by apply clearAll_inv.
Qed.

End BatchPage.


(** X17. When the upload request cannot connect (the fetch is rejected
    with a message containing [fetch]) or does not settle within its
    30 s, [makeApiRequest] throws an [ApiError], and [uploadBatch] then
    shows [Failed to upload batch. Please try again.]: the message about
    the load balancer being unavailable is not the one shown when the
    load balancer cannot be reached. *)
Theorem unreachable_load_balancer_shows_the_generic_upload_message
    (base : string) (net : ApiErrorHandler.FetchOutcome) (st : BatchAnalyze.State) :
  BatchAnalyze.files st ≠ [] →
  fetch_fails net 30000 ∨ ¬ settles_before net 30000 →
  ∃ e, (Api.makeApiRequest base "/batch/upload" net None).2
       = ApiErrorHandler.Throw (ApiErrorHandler.IsApiError e)
       ∧ ApiErrorHandler.messageOf (ApiErrorHandler.IsApiError e)
         = ApiErrorHandler.Normal (Some (ApiErrorHandler.message e))
       ∧ BatchAnalyze.uploadBatch
           (BatchAnalyze.UploadThrows (Some (ApiErrorHandler.message e))) st
         = (BatchAnalyze.mkState (BatchAnalyze.files st) false (BatchAnalyze.batchStatus st)
              (Some "Failed to upload batch. Please try again."), None).
Proof.
  intros Hfiles Hnet.
  assert (∃ e, (Api.makeApiRequest base "/batch/upload" net None).2
               = ApiErrorHandler.Throw (ApiErrorHandler.IsApiError e)
               ∧ (ApiErrorHandler.message e
                  = "Unable to connect to server. Please check if the server is running."
                  ∨ ApiErrorHandler.message e = "Request was cancelled")) as (e & He & Hmsg).
  { unfold Api.makeApiRequest. change (default 30000%N None) with 30000%N.
    rewrite apiRequest_cases. destruct Hnet as [(t & msg & -> & Hlt & Hincl)|Hlate].
    - destruct (N.ltb_spec t 30000); [|lia]. rewrite Hincl. cbn. eexists. split; [done|].
      by left.
    - destruct net as [t r|t msg|]; cbn in Hlate.
      + destruct (N.ltb_spec t 30000); [lia|]. cbn. eexists. split; [done|]. by right.
      + destruct (N.ltb_spec t 30000); [lia|]. cbn. eexists. split; [done|]. by right.
      + cbn. eexists. split; [done|]. by right. }
  exists e. split; [exact He|]. split; [done|].
  unfold BatchAnalyze.uploadBatch. rewrite bool_decide_eq_false_2
    by (by destruct (BatchAnalyze.files st)).
  unfold BatchAnalyze.uploadFailed.
  destruct Hmsg as [-> | ->]; vm_compute; reflexivity.
Qed.

Lemma unreachable_load_balancer_shows_the_generic_upload_message_witness :
  ∃ e, (Api.makeApiRequest "http://localhost:9000" "/batch/upload"
          (ApiErrorHandler.Rejects 3 "Failed to fetch") None).2
       = ApiErrorHandler.Throw (ApiErrorHandler.IsApiError e)
       ∧ ApiErrorHandler.messageOf (ApiErrorHandler.IsApiError e)
         = ApiErrorHandler.Normal (Some (ApiErrorHandler.message e))
       ∧ BatchAnalyze.uploadBatch
           (BatchAnalyze.UploadThrows (Some (ApiErrorHandler.message e)))
           (fresh_page [BatchAnalyze.mkBatchFile "a.png" "blob:0" "waiting"])
         = (BatchAnalyze.mkState
              (BatchAnalyze.files (fresh_page [BatchAnalyze.mkBatchFile "a.png" "blob:0" "waiting"]))
              false
              (BatchAnalyze.batchStatus
                 (fresh_page [BatchAnalyze.mkBatchFile "a.png" "blob:0" "waiting"]))
              (Some "Failed to upload batch. Please try again."), None).
Proof.
  apply (unreachable_load_balancer_shows_the_generic_upload_message
           "http://localhost:9000" (ApiErrorHandler.Rejects 3 "Failed to fetch")
           (fresh_page [BatchAnalyze.mkBatchFile "a.png" "blob:0" "waiting"])).
  - discriminate.
  - left. exists 3%N, "Failed to fetch". split; [reflexivity|]. split; [lia|].
    vm_compute. reflexivity.
Defined.


(** X19. From the mounted batch page, after any run of dropping files,
    removing a file and clearing the list in which no removal threw: the
    preview URLs of the listed files are pairwise different and are
    exactly the object URLs alive, so none is leaked and none is revoked
    too early; dropping one more file and removing it again gives back
    the list and the live URLs; and the cleanup on unmount, which
    iterates over the file list of the first render, revokes none of
    them. *)
Theorem previews_are_the_live_object_urls
    (actions : list BatchAnalyze.FileAction)
    (st : BatchAnalyze.State) (urls : BatchAnalyze.ObjectUrls) :
  BatchAnalyze.acts actions mounted_page = Some (st, urls) →
  NoDup (previews st)
  ∧ BatchAnalyze.alive urls = list_to_set (previews st)
  ∧ (∀ f, ∃ st' urls',
       BatchAnalyze.removeFile (length (BatchAnalyze.files st))
         (BatchAnalyze.onDrop [f] (st, urls)) = Some (st', urls')
       ∧ BatchAnalyze.files st' = BatchAnalyze.files st
       ∧ BatchAnalyze.alive urls' = BatchAnalyze.alive urls)
  ∧ BatchAnalyze.alive (BatchAnalyze.unmount urls) = BatchAnalyze.alive urls.
Proof.
  intros Hrun.
  assert (files_inv mounted_page) as Hinit.
  { split; [constructor|]. split; [done|constructor]. }
  pose proof (acts_inv actions _ _ Hinit Hrun) as (Hnd & Ha & Hk).
  cbn [fst snd] in *. split; [done|]. split; [done|]. split; [|done].
  intros f. unfold BatchAnalyze.onDrop, BatchAnalyze.removeFile. cbn.
  rewrite lookup_app_r by lia. rewrite Nat.sub_diag. cbn.
  eexists _, _. split; [done|]. cbn. split.
  - rewrite <- (app_nil_r (BatchAnalyze.files st)) at 3.
    by rewrite delete_middle.
  - assert ("blob:" +:+ pretty (BatchAnalyze.created urls) ∉ BatchAnalyze.alive urls) as Hfresh.
    { rewrite Ha, elem_of_list_to_set. intros Hin. rewrite Forall_forall in Hk.
      destruct (Hk _ Hin) as (k & Hlt & E). apply blob_inj in E. lia. }
    set_solver.
Qed.

Lemma previews_are_the_live_object_urls_witness :
  let page := BatchAnalyze.onDrop ["a.png"; "b.png"] mounted_page in
  NoDup (previews page.1)
  ∧ BatchAnalyze.alive page.2 = list_to_set (previews page.1)
  ∧ (∀ f, ∃ st' urls',
       BatchAnalyze.removeFile (length (BatchAnalyze.files page.1))
         (BatchAnalyze.onDrop [f] (page.1, page.2)) = Some (st', urls')
       ∧ BatchAnalyze.files st' = BatchAnalyze.files page.1
       ∧ BatchAnalyze.alive urls' = BatchAnalyze.alive page.2)
  ∧ BatchAnalyze.alive (BatchAnalyze.unmount page.2) = BatchAnalyze.alive page.2.
Proof.
  apply (previews_are_the_live_object_urls [BatchAnalyze.Drop ["a.png"; "b.png"]]).
  reflexivity.
Defined.

(** ** The server-error page, the quick health check and lazy images *)

Section StatusCard.
Import Js ServerError.


End StatusCard.


(** X21. [checkServerHealth] never throws. It stores the health reply
    when one arrives in time as an [ok] JSON response. When an [ok]
    response arrived in time and its body never ends, it stays waiting
    with [isCheckingHealth] set and the earlier status kept. In every
    other case it ends with [isCheckingHealth] cleared and [null]
    stored, so that the status card of an earlier check is no longer
    shown. *)
Theorem failed_health_check_removes_the_status_card
    (base : string) (net : ApiErrorHandler.FetchOutcome) (st : ServerError.State) :
  (∀ v, ServerError.checkServerHealth base net st
        ≠ ApiErrorHandler.Ends (ApiErrorHandler.Throw v))
  ∧ (∀ d, answers_json net 10000 d →
          ServerError.checkServerHealth base net st
          = ApiErrorHandler.Ends (ApiErrorHandler.Normal (ServerError.mkState d false)))
  ∧ (body_stalls net 10000 →
       ServerError.checkServerHealth base net st
       = ApiErrorHandler.Waits (ServerError.mkState (ServerError.serverStatus st) true))
  ∧ ((¬ ∃ d, answers_json net 10000 d) → ¬ body_stalls net 10000 →
       ServerError.checkServerHealth base net st
       = ApiErrorHandler.Ends
           (ApiErrorHandler.Normal (ServerError.mkState Js.JNull false))
       ∧ ServerError.getServerStatusDisplay
           (ServerError.serverStatus (ServerError.mkState Js.JNull false))
         = ServerError.Rendered None).
Proof.
  unfold ServerError.checkServerHealth.
  pose proof (checkHealth_normal_iff base net) as Hnormal.
  pose proof (checkHealth_stalls base net) as Hstalls.
  destruct (Api.checkLoadBalancerHealth base net) as [[t [d0|v]]|].
  - split; [done|]. split; [|split].
    + intros d Hd. apply Hnormal in Hd as [t' [= _ <-]]. done.
    + intros Hst. by apply Hstalls in Hst.
    + intros Hnone. destruct Hnone. exists d0. apply Hnormal. by exists t.
  - split; [done|]. split; [|split].
    + intros d Hd. by apply Hnormal in Hd as [t' ?].
    + intros Hst. by apply Hstalls in Hst.
    + done.
  - split; [done|]. split; [|split].
    + intros d Hd. by apply Hnormal in Hd as [t' ?].
    + done.
    + intros _ Hno. destruct Hno. by apply Hstalls.
Qed.

Section QuickCheck.
Import Js StartFullSystem.

Lemma printed_Some label v line :
  printed label v = Some line
  ↔ ∃ value, v = Some value ∧ printable value = true ∧ line = Shown label value.
Proof.
  unfold printed. destruct v as [value|].
  - destruct (printable value) eqn:Hp.
    + split; [intros [= <-]; by exists value|]. by intros (? & [= <-] & _ & ->).
    + split; [done|]. intros (? & [= <-] & ? & _). congruence.
  - split; [done|]. by intros (? & ? & _).
Qed.

Lemma has_all_stats_iff reply :
  has_all_stats reply ↔
  ∃ data total healthy algorithm next,
    reply = Some data
    ∧ printed "Total Servers" (subscript "servers" data ≫= subscript "total")
      = Some (Shown "Total Servers" total)
    ∧ printed "Healthy Servers" (subscript "servers" data ≫= subscript "healthy")
      = Some (Shown "Healthy Servers" healthy)
    ∧ printed "Algorithm" (subscript "load_balancer" data ≫= subscript "algorithm")
      = Some (Shown "Algorithm" algorithm)
    ∧ printed "Next Server" (subscript "next_server" data)
      = Some (Shown "Next Server" next).
Proof.
  unfold has_all_stats, stats_paths. split.
  - intros (data & -> & Hall).
    apply Forall_cons in Hall as [(total & Ht & Hpt) Hall].
    apply Forall_cons in Hall as [(healthy & Hh & Hph) Hall].
    apply Forall_cons in Hall as [(algorithm & Hal & Hpa) Hall].
    apply Forall_cons in Hall as [(next & Hn & Hpn) _].
    exists data, total, healthy, algorithm, next. split; [done|].
    cbn in Ht, Hh, Hal, Hn. rewrite Ht, Hh, Hal, Hn. cbn.
    by rewrite Hpt, Hph, Hpa, Hpn.
  - intros (data & total & healthy & algorithm & next & -> & Ht & Hh & Hal & Hn).
    apply printed_Some in Ht as (? & Ht & Hpt & [= <-]).
    apply printed_Some in Hh as (? & Hh & Hph & [= <-]).
    apply printed_Some in Hal as (? & Hal & Hpa & [= <-]).
    apply printed_Some in Hn as (? & Hn & Hpn & [= <-]).
    exists data. split; [done|].
    repeat apply Forall_cons_2; try apply Forall_nil_2; cbv beta; by eexists.
Qed.

Lemma printed_line label v line : printed label v = Some line → line ≠ StillStarting.
Proof. intros (? & _ & _ & ->)%printed_Some. done. Qed.

End QuickCheck.

(** X22. The quick health check of the start script prints the line
    [Load Balancer: Still starting...] exactly when the [/stats] reply
    lacks one of the four values it reads or holds one that cannot be
    printed. With all four it prints the four value lines and nothing
    else; otherwise it prints at most three value lines and then the
    fallback line as the last one. *)
Theorem quick_health_check_prints_all_four_or_gives_up (reply : option Js.json) :
  (StartFullSystem.StillStarting ∈ StartFullSystem.quickHealthCheck reply
     ↔ ¬ has_all_stats reply)
  ∧ (has_all_stats reply →
       ∃ total healthy algorithm next,
         StartFullSystem.quickHealthCheck reply
         = [StartFullSystem.Shown "Total Servers" total;
            StartFullSystem.Shown "Healthy Servers" healthy;
            StartFullSystem.Shown "Algorithm" algorithm;
            StartFullSystem.Shown "Next Server" next])
  ∧ (¬ has_all_stats reply →
       ∃ shown, StartFullSystem.quickHealthCheck reply
                = (shown ++ [StartFullSystem.StillStarting])%list
                ∧ length shown ≤ 3
                ∧ StartFullSystem.StillStarting ∉ shown).
Proof.
  rewrite has_all_stats_iff. unfold StartFullSystem.quickHealthCheck.
  destruct reply as [data|].
  2:{ split; [|split].
      - split; [by intros _ (? & ? & ? & ? & ? & ? & _)|]. intros _. by left.
      - by intros (? & ? & ? & ? & ? & ? & _).
      - intros _. exists []. split; [done|]. split; [cbn; lia|]. by intros ?%elem_of_nil. }
  destruct (StartFullSystem.printed "Total Servers" _) as [l1|] eqn:Ht.
  2:{ split; [|split].
      - split; [|intros _; by left].
        intros _ (? & ? & ? & ? & ? & [= <-] & ? & _). congruence.
      - intros (? & ? & ? & ? & ? & [= <-] & ? & _). congruence.
      - intros _. exists []. split; [done|]. split; [cbn; lia|]. by intros ?%elem_of_nil. }
  pose proof (printed_line _ _ _ Ht) as Hl1.
  destruct (StartFullSystem.printed "Healthy Servers" _) as [l2|] eqn:Hh.
  2:{ split; [|split].
      - split; [|intros _; right; by left].
        intros _ (? & ? & ? & ? & ? & [= <-] & ? & ? & _). congruence.
      - intros (? & ? & ? & ? & ? & [= <-] & ? & ? & _). congruence.
      - intros _. exists [l1]. split; [done|]. split; [cbn; lia|].
        intros Hin. apply list_elem_of_In in Hin. cbn in Hin. intuition congruence. }
  pose proof (printed_line _ _ _ Hh) as Hl2.
  destruct (StartFullSystem.printed "Algorithm" _) as [l3|] eqn:Hal.
  2:{ split; [|split].
      - split; [|intros _; right; right; by left].
        intros _ (? & ? & ? & ? & ? & [= <-] & ? & ? & ? & _). congruence.
      - intros (? & ? & ? & ? & ? & [= <-] & ? & ? & ? & _). congruence.
      - intros _. exists [l1; l2]. split; [done|]. split; [cbn; lia|].
        intros Hin. apply list_elem_of_In in Hin. cbn in Hin. intuition congruence. }
  pose proof (printed_line _ _ _ Hal) as Hl3.
  destruct (StartFullSystem.printed "Next Server" _) as [l4|] eqn:Hn.
  2:{ split; [|split].
      - split; [|intros _; right; right; right; by left].
        intros _ (? & ? & ? & ? & ? & [= <-] & ? & ? & ? & ?). congruence.
      - intros (? & ? & ? & ? & ? & [= <-] & ? & ? & ? & ?). congruence.
      - intros _. exists [l1; l2; l3]. split; [done|]. split; [cbn; lia|].
        intros Hin. apply list_elem_of_In in Hin. cbn in Hin. intuition congruence. }
  pose proof (printed_line _ _ _ Hn) as Hl4.
  apply printed_Some in Ht as (total & Ht & Hpt & ->).
  apply printed_Some in Hh as (healthy & Hh & Hph & ->).
  apply printed_Some in Hal as (algorithm & Hal & Hpa & ->).
  apply printed_Some in Hn as (next & Hn & Hpn & ->).
  assert (∃ data' total' healthy' algorithm' next',
            Some data = Some data'
            ∧ StartFullSystem.printed "Total Servers"
                (StartFullSystem.subscript "servers" data'
                   ≫= StartFullSystem.subscript "total")
              = Some (StartFullSystem.Shown "Total Servers" total')
            ∧ StartFullSystem.printed "Healthy Servers"
                (StartFullSystem.subscript "servers" data'
                   ≫= StartFullSystem.subscript "healthy")
              = Some (StartFullSystem.Shown "Healthy Servers" healthy')
            ∧ StartFullSystem.printed "Algorithm"
                (StartFullSystem.subscript "load_balancer" data'
                   ≫= StartFullSystem.subscript "algorithm")
              = Some (StartFullSystem.Shown "Algorithm" algorithm')
            ∧ StartFullSystem.printed "Next Server"
                (StartFullSystem.subscript "next_server" data')
              = Some (StartFullSystem.Shown "Next Server" next')) as Hall.
  { exists data, total, healthy, algorithm, next. split; [done|].
    rewrite Ht, Hh, Hal, Hn. cbn. by rewrite Hpt, Hph, Hpa, Hpn. }
  split; [|split].
  - split; [|by intros Hnot].
    intros Hin. apply list_elem_of_In in Hin. cbn in Hin. intuition congruence.
  - intros _. by exists total, healthy, algorithm, next.
  - by intros Hnot.
Qed.

Section Lazy.
Import LazyImage.

Lemma dispatch_inv st e :
  (isLoaded st = true → isInView st = true) →
  (hasError st = true → isLoaded st = true) →
  observing st = negb (isInView st) →
  let st' := dispatch st e in
  (isLoaded st' = true → isInView st' = true)
  ∧ (hasError st' = true → isLoaded st' = true)
  ∧ observing st' = negb (isInView st')
  ∧ (isInView st = true → isInView st' = true)
  ∧ (isLoaded st = true → isLoaded st' = true)
  ∧ (hasError st = true → hasError st' = true).
Proof.
  destruct st as [l v err o]. cbn. intros Hl He Ho.
  destruct e as [[|]| |]; cbn; destruct o, v, l, err; cbn in *; intuition congruence.
Qed.

Lemma lazy_run_inv events st :
  (isLoaded st = true → isInView st = true) →
  (hasError st = true → isLoaded st = true) →
  observing st = negb (isInView st) →
  let st' := foldl dispatch st events in
  (isLoaded st' = true → isInView st' = true)
  ∧ (hasError st' = true → isLoaded st' = true)
  ∧ observing st' = negb (isInView st')
  ∧ (isInView st = true → isInView st' = true)
  ∧ (isLoaded st = true → isLoaded st' = true)
  ∧ (hasError st = true → hasError st' = true).
Proof.
  revert st. induction events as [|e events IH]; intros st Hl He Ho; [cbn; tauto|].
  cbn [foldl]. destruct (dispatch_inv st e Hl He Ho) as (Hl1 & He1 & Ho1 & Mv & Ml & Me).
  destruct (IH (dispatch st e) Hl1 He1 Ho1) as (Hl2 & He2 & Ho2 & Mv2 & Ml2 & Me2).
  cbv zeta. tauto.
Qed.

Lemma lazy_run_in_view events : ∀ st,
  observing st = negb (isInView st) →
  isInView (foldl dispatch st events) = true
  ↔ isInView st = true ∨ Intersects true ∈ events.
Proof.
  induction events as [|e events IH]; intros st Ho; cbn [foldl].
  - split; [by left|]. intros [?|?%elem_of_nil]; done.
  - rewrite IH.
    + rewrite elem_of_cons. destruct st as [l v err o]. cbn in Ho. subst o.
      destruct e as [[|]| |]; destruct v; cbn; intuition congruence.
    + destruct st as [l v err o]. cbn in Ho. subst o.
      destruct e as [[|]| |]; destruct v; cbn; done.
Qed.

End Lazy.

(** X23. A lazy image renders no [<img>] exactly as long as the observer
    has not reported the box as intersecting. Once the skeleton is gone
    it stays gone, and the image is then in view and opaque. Once the
    image has failed, the fallback is shown, and no later event brings
    the original source back. *)
Theorem lazy_image_is_requested_only_in_view
    (src fallback : string) (events more : list LazyImage.Event) :
  let view := LazyImage.render src fallback (lazy_run events) in
  let later := LazyImage.render src fallback (lazy_run (events ++ more)) in
  (LazyImage.img view = None ↔ LazyImage.Intersects true ∉ events)
  ∧ (LazyImage.skeleton view = false →
       LazyImage.skeleton later = false
       ∧ ∃ shown, LazyImage.img view = Some (shown, true))
  ∧ (LazyImage.hasError (lazy_run events) = true →
       LazyImage.img view = Some (fallback, true)
       ∧ LazyImage.img later = Some (fallback, true)).
Proof.
  cbv zeta. unfold lazy_run. rewrite foldl_app.
  assert (LazyImage.observing LazyImage.mounted
          = negb (LazyImage.isInView LazyImage.mounted)) as Ho0 by done.
  assert (LazyImage.isLoaded LazyImage.mounted = true
          → LazyImage.isInView LazyImage.mounted = true) as Hl0 by done.
  assert (LazyImage.hasError LazyImage.mounted = true
          → LazyImage.isLoaded LazyImage.mounted = true) as He0 by done.
  pose proof (lazy_run_in_view events _ Ho0) as Hview.
  destruct (lazy_run_inv events _ Hl0 He0 Ho0) as (Hl & He & Ho & _).
  set (st := foldl LazyImage.dispatch LazyImage.mounted events) in *.
  destruct (lazy_run_inv more st Hl He Ho) as (Hl' & He' & _ & Mv & Ml & Me).
  set (st' := foldl LazyImage.dispatch st more) in *.
  unfold LazyImage.render. cbn [LazyImage.img LazyImage.skeleton].
  split; [|split].
  - destruct (LazyImage.isInView st).
    + split; [done|]. intros Hnot. destruct Hnot.
      destruct (proj1 Hview eq_refl) as [?|?]; done.
    + split; [|done]. intros _ Hin.
      assert (false = true) by (apply (proj2 Hview); by right). done.
  - rewrite !negb_false_iff. intros Hloaded. split; [by apply Ml|].
    rewrite (Hl Hloaded), Hloaded. by eexists.
  - intros Herr. rewrite (Hl (He Herr)), Herr, (He Herr).
    rewrite (Hl' (He' (Me Herr))), (Me Herr), (He' (Me Herr)). done.
Qed.

(** ** The analyze page: one preview at a time *)

Section Preview.
Import BatchAnalyze.

Lemma analyze_onDrop_inv acceptedFiles page :
  (match page.1 with
   | Some url => alive page.2 = {[url]}
                 ∧ ∃ k, k < created page.2 ∧ url = "blob:" +:+ pretty k
   | None => alive page.2 = ∅
   end) →
  match (Analyze.onDrop acceptedFiles page).1 with
  | Some url => alive (Analyze.onDrop acceptedFiles page).2 = {[url]}
                ∧ ∃ k, k < created (Analyze.onDrop acceptedFiles page).2
                       ∧ url = "blob:" +:+ pretty k
  | None => alive (Analyze.onDrop acceptedFiles page).2 = ∅
  end.
Proof.
  destruct page as [previewUrl urls]. cbn [fst snd]. intros Hinv.
  destruct acceptedFiles as [|file rest]; [done|]. cbn [Analyze.onDrop createObjectURL fst snd].
  destruct previewUrl as [old|].
  - destruct Hinv as (Ha & k & Hlt & ->).
    assert ("blob:" +:+ pretty (created urls) ≠ "blob:" +:+ pretty k) as Hne.
    { intros E%blob_inj. lia. }
    rewrite bool_decide_eq_false_2 by congruence.
    assert ("blob:" +:+ pretty k ≠ "") as Hne' by done.
    cbn [Analyze.cleanup]. rewrite (bool_decide_eq_false_2 _ Hne').
    cbn [alive created revokeObjectURL].
    split; [|exists (created urls); split; [lia|done]].
    rewrite Ha. set_solver.
  - rewrite bool_decide_eq_false_2 by done. cbn [Analyze.cleanup alive created].
    split; [|exists (created urls); split; [lia|done]].
    rewrite Hinv. set_solver.
Qed.

End Preview.

(** X24. On the analyze page, after any run of drops, the object URLs
    alive are exactly the preview shown, at most one: the URL of the
    image dropped before is revoked when the next one is stored, a drop
    without a file changes nothing, and unmounting revokes the last
    one. *)
Theorem analyze_keeps_one_preview_alive (drops : list (list string)) :
  let page := foldl (λ page acceptedFiles, Analyze.onDrop acceptedFiles page)
                Analyze.mounted drops in
  BatchAnalyze.alive page.2 = from_option singleton ∅ page.1
  ∧ BatchAnalyze.alive (Analyze.unmount page) = ∅
  ∧ Analyze.onDrop [] page = page.
Proof.
  cbv zeta.
  assert (match Analyze.mounted.1 with
          | Some url => BatchAnalyze.alive Analyze.mounted.2 = {[url]}
                        ∧ ∃ k, k < BatchAnalyze.created Analyze.mounted.2
                               ∧ url = "blob:" +:+ pretty k
          | None => BatchAnalyze.alive Analyze.mounted.2 = ∅
          end) as Hinv by done.
  revert Hinv. generalize Analyze.mounted.
  induction drops as [|acceptedFiles drops IH]; intros page Hinv; cbn [foldl].
  - destruct page as [[url|] urls]; cbn [fst snd] in *.
    + destruct Hinv as (Ha & k & Hlt & ->). split; [done|]. split; [|done].
      assert ("blob:" +:+ pretty k ≠ "") as Hne by done.
      unfold Analyze.unmount. cbn [fst snd Analyze.cleanup].
      rewrite (bool_decide_eq_false_2 _ Hne). cbn [BatchAnalyze.alive BatchAnalyze.revokeObjectURL].
      rewrite Ha. set_solver.
    + done.
  - apply IH. by apply analyze_onDrop_inv.
Qed.
